(** * afxnuketools.metrics: centroid and maximum of an image channel

    A shallow embedding of [src/afxnuketools/metrics.py].

    - Python integers are [Z]; Python floats are exact rationals [Qc]
      (rounding, infinities and NaN are outside the model).
    - The worker functions [_centroid] and [_max_value] run in a small
      state-and-error monad: the state is the log of the calls made to
      the image sampling service, an error is a raised Python exception.
    - [nuke.toNode(name).sample(channel, x, y)] is the external sampling
      service; [ImageMultiProcessor] (package afxthreads) and
      [nuke.ProgressTask] are external collaborators, taken as an
      interface. The [with] block of the two operations is taken to
      release the pool and to let exceptions through.
    - The polling loop of the two operations runs on fuel: it need not
      end if the engine keeps working and nobody cancels. *)

From Stdlib Require Import ZArith QArith Qcanon Lia Permutation.
From stdpp Require Import base numbers list strings.

Local Open Scope Z_scope.

(** ** Python values and exceptions *)

(** [afxthreads.image.Bounds]: an inclusive integer rectangle. *)
Record Bounds : Type := mkBounds { x1 : Z; y1 : Z; x2 : Z; y2 : Z }.

(** Exceptions a worker can raise. *)
Inductive exn : Type :=
| ValueError                    (* xrange() arg 3 must not be zero *)
| ZeroDivisionError             (* float division by zero *)
| SampleError (msg : string).   (* raised by the sampling service *)

Inductive result (A : Type) : Type :=
| Ok (a : A)
| Err (e : exn).
Arguments Ok {A} a.
Arguments Err {A} e.

(** ** The worker monad: a log of sample calls, and exceptions *)

Definition pixel : Type := Z * Z.
Definition Worker (A : Type) : Type := list pixel -> list pixel * result A.

Definition ret {A} (a : A) : Worker A := fun log => (log, Ok a).
Definition raise {A} (e : exn) : Worker A := fun log => (log, Err e).
Definition bind {A B} (m : Worker A) (k : A -> Worker B) : Worker B :=
  fun log =>
    match m log with
    | (log', Ok a) => k a log'
    | (log', Err e) => (log', Err e)
    end.
Definition lift {A} (r : result A) : Worker A := fun log => (log, r).

Declare Scope worker_scope.
Delimit Scope worker_scope with worker.
Notation "'let!' x ':=' m 'in' k" := (bind m (fun x => k))
  (at level 10, x name, m at level 100, k at level 200) : worker_scope.
Local Open Scope worker_scope.

(** [xrange(start, stop, step)]: its length is fixed when it is created,
    a zero step raises [ValueError]. *)
Definition xrange_len (start stop step : Z) : Z :=
  if 0 <? step then
    if start <? stop then (stop - start - 1) / step + 1 else 0
  else
    if stop <? start then (start - stop - 1) / (- step) + 1 else 0.

Definition xrange_items (start stop step : Z) : list Z :=
  map (fun i : nat => start + Z.of_nat i * step)
    (seq 0 (Z.to_nat (xrange_len start stop step))).

Definition xrange (start stop step : Z) : result (list Z) :=
  if step =? 0 then Err ValueError else Ok (xrange_items start stop step).

(** [for i in l: s = body(i, s)] *)
Fixpoint for_in {I S : Type} (l : list I) (body : I -> S -> Worker S) (s : S)
  : Worker S :=
  match l with
  | [] => ret s
  | i :: l' => let! s' := body i s in for_in l' body s'
  end.

(** Python's [a / n] for a float [a] and an int [n]. *)
Definition fdiv (a : Qc) (n : Z) : Worker Qc :=
  if n =? 0 then raise ZeroDivisionError else ret (a / Qc_of_Z n)%Qc.

(** Python's [max(a, b)]: [b] replaces [a] only when [b > a]. *)
Definition py_max (a b : Qc) : Qc := if decide (a < b)%Qc then b else a.

(** What the image source answers: a value, or a raised error. *)
Inductive sampled : Type :=
| Sampled (v : Qc)
| SampleFailed (msg : string).

Section Workers.

(** The image source: [nuke.toNode(node_name).sample(channel, x, y)]. *)
Variable sample : string -> string -> Z -> Z -> sampled.

Definition sample_at (node_name channel : string) (x y : Z) : Worker Qc :=
  fun log =>
    (log ++ [(x, y)],
     match sample node_name channel x y with
     | Sampled v => Ok v
     | SampleFailed msg => Err (SampleError msg)
     end).

(** Loop state of [_centroid]: mean_x, mean_y, mean_weight, n. *)
Record centroid_acc : Type := mkAcc
  { mean_x : Qc; mean_y : Qc; mean_weight : Qc; n : Z }.

Definition _centroid_body (node_name channel : string) (y x : Z)
    (s : centroid_acc) : Worker centroid_acc :=
  let! weight := sample_at node_name channel x y in
  let n := n s + 1 in
  let! dw := fdiv (weight - mean_weight s) n in
  let mean_weight := (mean_weight s + dw)%Qc in
  let! dx := fdiv (weight * Qc_of_Z x - mean_x s) n in
  let mean_x := (mean_x s + dx)%Qc in
  let! dy := fdiv (weight * Qc_of_Z y - mean_y s) n in
  let mean_y := (mean_y s + dy)%Qc in
  ret (mkAcc mean_x mean_y mean_weight n).

Definition _centroid (region : Bounds) (node_name channel : string)
    (step : Z) : Worker (Qc * Qc * Qc) :=
  let s0 := mkAcc 0 0 0 0 in
  let! ys := lift (xrange (y1 region) (y2 region + 1) step) in
  let! s := for_in ys (fun y s =>
              let! xs := lift (xrange (x1 region) (x2 region + 1) step) in
              for_in xs (_centroid_body node_name channel y) s) s0 in
  ret (mean_x s, mean_y s, mean_weight s).

Definition _max_value_body (node_name channel : string) (y x : Z)
    (max_val : Qc) : Worker Qc :=
  let! v := sample_at node_name channel x y in
  ret (py_max max_val v).

Definition _max_value (region : Bounds) (node_name channel : string)
    (step : Z) : Worker Qc :=
  let max_val := 0%Qc in
  let! ys := lift (xrange (y1 region) (y2 region + 1) step) in
  for_in ys (fun y max_val =>
    let! xs := lift (xrange (x1 region) (x2 region + 1) step) in
    for_in xs (_max_value_body node_name channel y) max_val) max_val.

End Workers.

(** ** Results collected by the engine *)

(** An entry of [mp.results]: the value a job returned, or the exception
    object it raised (captured, with its message). *)
Inductive JobResult (A : Type) : Type :=
| Value (v : A)
| Exc (msg : string).
Arguments Value {A} v.
Arguments Exc {A} msg.

Definition is_exception {A} (r : JobResult A) : bool :=
  match r with Exc _ => true | Value _ => false end.

(** [str(r)]: the message of an exception object; the printed form of a
    number or tuple is kept symbolic. *)
Inductive pystr (A : Type) : Type :=
| Text (s : string)
| StrOfValue (v : A).
Arguments Text {A} s.
Arguments StrOfValue {A} v.

Definition str {A} (r : JobResult A) : pystr A :=
  match r with
  | Exc msg => Text msg
  | Value v => StrOfValue v
  end.

(** What a top-level operation can raise. *)
Inductive raised (A : Type) : Type :=
| Exception (msg : pystr A)
| ZeroDivision.
Arguments Exception {A} msg.
Arguments ZeroDivision {A}.

Inductive outcome (A R : Type) : Type :=
| Returned (r : R)
| Raised (e : raised A).
Arguments Returned {A R} r.
Arguments Raised {A R} e.

Definition str_exn (e : exn) : string :=
  match e with
  | ValueError => "xrange() arg 3 must not be zero"
  | ZeroDivisionError => "float division by zero"
  | SampleError msg => msg
  end.

(** The entry a job leaves in [mp.results]: it starts with an empty log. *)
Definition job_result {A} (w : Worker A) : JobResult A :=
  match snd (w []) with
  | Ok v => Value v
  | Err e => Exc (str_exn e)
  end.

(** ** Aggregation in [centroid] (lines 98-116) *)

Definition partial : Type := Qc * Qc * Qc.

(** Local variables of [centroid] after the polling loop. *)
Record centroid_vars : Type := mkVars
  { centroid_var : option (Qc * Qc); sum_x : Qc; sum_y : Qc; sum_weight : Qc }.

(** [for r in mp.results: ...]; the assignment [centroid = None] is lost
    with the frame when the exception is raised. *)
Fixpoint centroid_collect (state : bool) (results : list (JobResult partial))
    (v : centroid_vars) : outcome partial centroid_vars :=
  match results with
  | [] => Returned v
  | r :: results' =>
      if negb state || is_exception r then Raised (Exception (str r))
      else
        match r with
        | Value (r0, r1, r2) =>
            centroid_collect state results'
              (mkVars (centroid_var v) (sum_x v + r0) (sum_y v + r1)
                 (sum_weight v + r2))%Qc
        | Exc _ => Raised (Exception (str r))
        end
  end.

(** Python's float division [a / b]. *)
Definition qdiv {A} (a b : Qc) : outcome A Qc :=
  if decide (b = 0%Qc) then Raised ZeroDivision else Returned (a / b)%Qc.

Definition centroid_finish (v : centroid_vars)
  : outcome partial (option (Qc * Qc)) :=
  match centroid_var v with
  | Some _ =>
      if decide (0 < sum_weight v)%Qc then
        match qdiv (A:=partial) (sum_x v) (sum_weight v) with
        | Raised e => Raised e
        | Returned sx =>
            match qdiv (A:=partial) (sum_y v) (sum_weight v) with
            | Raised e => Raised e
            | Returned sy => Returned (Some (sx, sy))
            end
        end
      else Returned (Some (sum_x v, sum_y v))
  | None => Returned None
  end.

Definition centroid_aggregate (state : bool)
    (results : list (JobResult partial))
  : outcome partial (option (Qc * Qc)) :=
  match centroid_collect state results (mkVars (Some (0, 0)) 0 0 0)%Qc with
  | Raised e => Raised e
  | Returned v => centroid_finish v
  end.

(** ** Aggregation in [max_value] (lines 150-157) *)

Fixpoint max_value_collect (state : bool) (results : list (JobResult Qc))
    (max_val : Qc) : outcome Qc Qc :=
  match results with
  | [] => Returned max_val
  | r :: results' =>
      if negb state || is_exception r then Raised (Exception (str r))
      else
        match r with
        | Value v => max_value_collect state results' (py_max max_val v)
        | Exc _ => Raised (Exception (str r))
        end
  end.

(** [return max_val]: always the float, [None] is never assigned to it. *)
Definition max_value_aggregate (state : bool) (results : list (JobResult Qc))
  : outcome Qc (option Qc) :=
  match max_value_collect state results 0%Qc with
  | Raised e => Raised e
  | Returned m => Returned (Some m)
  end.

(** ** The engine interface and the polling loop *)

(** What [centroid] and [max_value] use of [ImageMultiProcessor]. The
    [with] block releases the pool on exit and lets exceptions through. *)
Class ImageMultiProcessor (E A : Type) : Type := {
  process_by_chunks : (Bounds -> Worker A) -> Bounds -> E -> E;
  is_working : E -> bool;
  wait_one : E -> E;
  abort : E -> E;
  results : E -> list (JobResult A);
  state : E -> bool
}.

(** [nuke.ProgressTask]: the answer of the k-th call of [isCancelled].
    [setProgress] only drives the host's widget and is left out, and
    with it the quotient by [mp.processes()], the size of the pool. *)
Record ProgressTask : Type := mkTask { isCancelled : nat -> bool }.

(** A node of the host: its name and bounding box. *)
Record Node : Type := mkNode
  { name : string; bbox_x : Z; bbox_y : Z; bbox_w : Z; bbox_h : Z }.

Definition node_region (node : Node) : Bounds :=
  mkBounds (bbox_x node) (bbox_y node)
    (bbox_w node + bbox_x node - 1) (bbox_h node + bbox_y node - 1).

Section Operations.

Context {E : Type}.
Variable sample : string -> string -> Z -> Z -> sampled.

(** [while mp.is_working(): ...]; [None] when the fuel runs out while
    the engine is still working and nobody cancelled. *)
Fixpoint poll {A} `{ImageMultiProcessor E A} (fuel : nat)
    (task : ProgressTask) (k : nat) (mp : E) : option E :=
  match fuel with
  | O => None
  | S fuel' =>
      if is_working mp then
        if isCancelled task k then Some (abort mp)
        else poll fuel' task (S k) (wait_one mp)
      else Some mp
  end.

Definition centroid `{ImageMultiProcessor E partial} (fuel : nat)
    (task : ProgressTask) (mp0 : E) (node : Node) (channel : string)
    (step : Z) : option (outcome partial (option (Qc * Qc))) :=
  let region := node_region node in
  let mp := process_by_chunks
              (fun r => _centroid sample r (name node) channel step)
              region mp0 in
  match poll fuel task 0 mp with
  | None => None
  | Some mp => Some (centroid_aggregate (state mp) (results mp))
  end.

Definition max_value `{ImageMultiProcessor E Qc} (fuel : nat)
    (task : ProgressTask) (mp0 : E) (node : Node) (channel : string)
    (step : Z) : option (outcome Qc (option Qc)) :=
  let region := node_region node in
  let mp := process_by_chunks
              (fun r => _max_value sample r (name node) channel step)
              region mp0 in
  match poll fuel task 0 mp with
  | None => None
  | Some mp => Some (max_value_aggregate (state mp) (results mp))
  end.

End Operations.

(** ** A scripted engine *)

(** Modelled from the spec: [ImageMultiProcessor] belongs to the package
    afxthreads, whose sources are not part of this repository. This
    instance follows section 4.3 of the specification: one job per
    sub-region, results collected one at a time, [state] false once a job
    failed or the engine was aborted. The partitioner is a field. *)
Record Scripted (A : Type) : Type := mkScripted {
  partition : Bounds -> list Bounds;
  pending : list (JobResult A);
  collected : list (JobResult A);
  success : bool;
  aborted : bool
}.
Arguments mkScripted {A}.
Arguments partition {A}.
Arguments pending {A}.
Arguments collected {A}.
Arguments success {A}.
Arguments aborted {A}.

Definition scripted_wait_one {A} (e : Scripted A) : Scripted A :=
  match pending e with
  | [] => e
  | r :: rest =>
      mkScripted (partition e) rest (collected e ++ [r])
        (success e && negb (is_exception r)) (aborted e)
  end.

#[export] Instance scripted_engine {A} : ImageMultiProcessor (Scripted A) A := {
  process_by_chunks f region e :=
    mkScripted (partition e) (map (fun r => job_result (f r)) (partition e region))
      (collected e) (success e) (aborted e);
  is_working e := negb (aborted e) && negb (bool_decide (pending e = []));
  wait_one := scripted_wait_one;
  abort e := mkScripted (partition e) (pending e) (collected e) false true;
  results := collected;
  state := success
}.

(** A fresh engine, [ImageMultiProcessor(log_exceptions=True)]. *)
Definition fresh {A} (chunks : Bounds -> list Bounds) : Scripted A :=
  mkScripted chunks [] [] true false.

(** A partitioner: the first column, and the columns after it. *)
Definition split_first_column (b : Bounds) : list Bounds :=
  if x1 b <? x2 b then
    [mkBounds (x1 b) (y1 b) (x1 b) (y2 b);
     mkBounds (x1 b + 1) (y1 b) (x2 b) (y2 b)]
  else [b].

(** ** Definitions used to state the properties *)

(** The points one job samples, rows outermost: the spec's reading of
    the two loops. *)
Definition grid (region : Bounds) (step : Z) : list pixel :=
  flat_map
    (fun y => map (fun x => (x, y))
                (xrange_items (x1 region) (x2 region + 1) step))
    (xrange_items (y1 region) (y2 region + 1) step).

Definition sumQc (l : list Qc) : Qc := foldr Qcplus 0%Qc l.

(** An image source that answers every query. *)
Definition total_source (f : string -> string -> Z -> Z -> Qc)
  : string -> string -> Z -> Z -> sampled :=
  fun node_name channel x y => Sampled (f node_name channel x y).

(** The naive definition of the three means, over a list of samples. *)
Definition naive_centroid (val : pixel -> Qc) (pts : list pixel) : partial :=
  let count := Qc_of_Z (Z.of_nat (length pts)) in
  (sumQc (map (fun p => val p * Qc_of_Z p.1) pts) / count,
   sumQc (map (fun p => val p * Qc_of_Z p.2) pts) / count,
   sumQc (map val pts) / count)%Qc.

(** The loop state of [_centroid] after the samples [pts]. *)
Record means_of (val : pixel -> Qc) (pts : list pixel) (s : centroid_acc)
  : Prop := mkMeans {
  means_n : n s = Z.of_nat (length pts);
  means_w : (mean_weight s * Qc_of_Z (n s))%Qc = sumQc (map val pts);
  means_x : (mean_x s * Qc_of_Z (n s))%Qc
            = sumQc (map (fun p => val p * Qc_of_Z p.1)%Qc pts);
  means_y : (mean_y s * Qc_of_Z (n s))%Qc
            = sumQc (map (fun p => val p * Qc_of_Z p.2)%Qc pts)
}.

(** [m] is the greatest element of [l]. *)
Definition is_maximum (l : list Qc) (m : Qc) : Prop :=
  m ∈ l /\ forall v, v ∈ l -> (v <= m)%Qc.

(** How many samples the two loops over [region] can take at most. *)
Definition loop_bound (region : Bounds) : nat :=
  (Z.to_nat (Z.max 0 (y2 region - y1 region + 1)) *
   Z.to_nat (Z.max 0 (x2 region - x1 region + 1)))%nat.

(** The message of the first captured error of a results collection. *)
Fixpoint first_error {A} (results : list (JobResult A)) : option string :=
  match results with
  | [] => None
  | Exc msg :: _ => Some msg
  | Value _ :: results' => first_error results'
  end.

(** A failure is visible to the aggregation loop: some collected result
    is an exception, or the state flag is false and the loop runs. *)
Definition failure_seen {A} (state : bool) (results : list (JobResult A))
  : Prop :=
  (exists r, r ∈ results /\ is_exception r = true)
  \/ (state = false /\ results <> []).

(** The last step of the aggregation, in the spec's words: normalize by
    the summed weight only if it is positive. *)
Definition normalized (sx sy sw : Qc) : Qc * Qc :=
  if decide (0 < sw)%Qc then (sx / sw, sy / sw)%Qc else (sx, sy).

(** Some collected result is an exception. *)
Definition exception_collected {A} (results : list (JobResult A)) : Prop :=
  exists r, r ∈ results /\ is_exception r = true.

(** The centre of the rectangle. *)
Definition geometric_center (region : Bounds) : Qc * Qc :=
  (Qc_of_Z (x1 region + x2 region) / 2, Qc_of_Z (y1 region + y2 region) / 2)%Qc.

(** Sub-regions that do not overlap and cover [region] exactly: their
    pixels, taken together, are the pixels of [region], each once. *)
Definition is_partition (subs : list Bounds) (region : Bounds) : Prop :=
  Permutation (flat_map (fun b => grid b 1) subs) (grid region 1).

(** The stride evenly divides the region: the last sample of every row
    and column lies on the far edge. *)
Definition evenly_divides (step : Z) (region : Bounds) : Prop :=
  (step | x2 region - x1 region) /\ (step | y2 region - y1 region).

(** The results collection of a completed run of [_centroid] jobs, one
    per sub-region. *)
Definition partials (sample : string -> string -> Z -> Z -> sampled)
    (subs : list Bounds) (node_name channel : string) (step : Z)
  : list (JobResult partial) :=
  map (fun b => job_result (_centroid sample b node_name channel step)) subs.

(** The engine as the polling loop of [centroid] leaves it. *)
Definition centroid_engine {E} `{ImageMultiProcessor E partial}
    (sample : string -> string -> Z -> Z -> sampled) (fuel : nat)
    (task : ProgressTask) (mp0 : E) (node : Node) (channel : string)
    (step : Z) : option E :=
  poll fuel task 0
    (process_by_chunks (fun r => _centroid sample r (name node) channel step)
       (node_region node) mp0).

(** The engine as the polling loop of [max_value] leaves it. *)
Definition max_value_engine {E} `{ImageMultiProcessor E Qc}
    (sample : string -> string -> Z -> Z -> sampled) (fuel : nat)
    (task : ProgressTask) (mp0 : E) (node : Node) (channel : string)
    (step : Z) : option E :=
  poll fuel task 0
    (process_by_chunks (fun r => _max_value sample r (name node) channel step)
       (node_region node) mp0).

(** The values among the entries of a results collection. *)
Fixpoint job_values {A} (results : list (JobResult A)) : list A :=
  match results with
  | [] => []
  | Value v :: results' => v :: job_values results'
  | Exc _ :: results' => job_values results'
  end.

(** The results collection of a completed run of [_max_value] jobs, one
    per sub-region. *)
Definition max_partials (sample : string -> string -> Z -> Z -> sampled)
    (subs : list Bounds) (node_name channel : string) (step : Z)
  : list (JobResult Qc) :=
  map (fun b => job_result (_max_value sample b node_name channel step)) subs.

(** The centroid of the samples [pts] weighted by [val]. *)
Definition weighted_centroid (val : pixel -> Qc) (pts : list pixel) : Qc * Qc :=
  (sumQc (map (fun p => val p * Qc_of_Z p.1) pts) / sumQc (map val pts),
   sumQc (map (fun p => val p * Qc_of_Z p.2) pts) / sumQc (map val pts))%Qc.

(** The image source answers at [p]. *)
Definition answers (sample : string -> string -> Z -> Z -> sampled)
    (node_name channel : string) (p : pixel) : Prop :=
  exists v, sample node_name channel p.1 p.2 = Sampled v.

(** ** Inputs used in the examples *)

Definition uniform_one (_ _ : string) (x y : Z) : sampled := Sampled 1%Qc.
Definition ramp (_ _ : string) (x y : Z) : Qc := Qc_of_Z (x + 2 * y).
Definition fails_at_x1 (_ _ : string) (x y : Z) : sampled :=
  if x =? 1 then SampleFailed "boom" else Sampled 1%Qc.
Definition never_cancelled : ProgressTask := mkTask (fun _ => false).
Definition cancelled_at_once : ProgressTask := mkTask (fun _ => true).
(** A node whose bounding box is one row of [w] pixels. *)
Definition strip (w : Z) : Node := mkNode "Read1" 0 0 w 1.

(** * Properties *)

(** Evaluation of closed terms that contain rationals. *)
Ltac qc_eval :=
  vm_compute;
  repeat match goal with
         | |- _ /\ _ => split
         | |- @eq Qc _ _ => apply Qc_is_canon; reflexivity
         | |- @eq bool _ _ => reflexivity
         | |- @eq (option string) _ _ => reflexivity
         | |- _ = _ => f_equal
         end.

(** ** The arithmetic progressions of [xrange] *)

Lemma xrange_len_nonneg start stop step : 0 <= xrange_len start stop step.
Proof.
  unfold xrange_len.
  destruct (0 <? step) eqn:Hs; [apply Z.ltb_lt in Hs|apply Z.ltb_ge in Hs].
  - destruct (start <? stop) eqn:Hc; [apply Z.ltb_lt in Hc|lia].
    assert (0 <= (stop - start - 1) / step) by (apply Z.div_pos; lia). lia.
  - destruct (stop <? start) eqn:Hc; [apply Z.ltb_lt in Hc|lia].
    destruct (Z.eq_dec step 0) as [->|Hne].
    + simpl. rewrite Z.div_0_r. lia.
    + assert (0 <= (start - stop - 1) / - step) by (apply Z.div_pos; lia). lia.
Qed.

Lemma xrange_len_lt start stop step k :
  0 < step -> 0 <= k ->
  k < xrange_len start stop step <-> start + k * step < stop.
Proof.
  intros Hs Hk. unfold xrange_len.
  destruct (0 <? step) eqn:E; [|apply Z.ltb_ge in E; lia].
  destruct (start <? stop) eqn:Hc; [apply Z.ltb_lt in Hc|apply Z.ltb_ge in Hc].
  - pose proof (Z.div_mod (stop - start - 1) step ltac:(lia)) as Hd.
    pose proof (Z.mod_pos_bound (stop - start - 1) step Hs) as Hm.
    split; intros; nia.
  - split; intros; nia.
Qed.

Lemma xrange_len_bound start stop step :
  0 < step -> xrange_len start stop step <= Z.max 0 (stop - start).
Proof.
  intros Hs.
  destruct (Z_le_gt_dec (xrange_len start stop step) 0) as [|Hpos]; [lia|].
  assert (Hk : xrange_len start stop step - 1 < xrange_len start stop step) by lia.
  apply xrange_len_lt in Hk; [nia|lia|lia].
Qed.

Lemma length_xrange_items start stop step :
  length (xrange_items start stop step) = Z.to_nat (xrange_len start stop step).
Proof. unfold xrange_items. by rewrite length_map, length_seq. Qed.

Lemma elem_of_xrange_items start stop step z :
  0 < step ->
  z ∈ xrange_items start stop step <->
  exists i, 0 <= i /\ z = start + i * step /\ z < stop.
Proof.
  intros Hs. unfold xrange_items. rewrite list_elem_of_fmap. split.
  - intros (k & -> & Hk). apply elem_of_seq in Hk. exists (Z.of_nat k).
    split; [lia|]. split; [done|].
    apply xrange_len_lt; [done|lia|].
    pose proof (xrange_len_nonneg start stop step). lia.
  - intros (i & Hi & -> & Hlt). exists (Z.to_nat i). split; [f_equal; lia|].
    apply elem_of_seq. apply xrange_len_lt in Hlt; [|done|done]. lia.
Qed.

Lemma NoDup_xrange_items start stop step :
  step <> 0 -> NoDup (xrange_items start stop step).
Proof.
  intros Hs. unfold xrange_items. apply NoDup_fmap_2; [|apply NoDup_seq].
  intros i j Hij. nia.
Qed.

Lemma xrange_ok start stop step :
  step <> 0 -> xrange start stop step = Ok (xrange_items start stop step).
Proof. intros Hs. unfold xrange. by destruct (Z.eqb_spec step 0). Qed.

(** ** Loop rules for [for_in] *)

Section LoopRules.

Context {I S : Type}.
Variable body : I -> S -> Worker S.

(** Every iteration succeeds, logs [pt i] and keeps the relation [R]
    between the points logged so far and the loop state. *)
Lemma for_in_ghost (R : list pixel -> S -> Prop) (pt : I -> list pixel)
    (l : list I) :
  (forall i s log pts, i ∈ l -> R pts s ->
     exists s', body i s log = (log ++ pt i, Ok s') /\ R (pts ++ pt i) s') ->
  forall s log pts, R pts s ->
    exists s', for_in l body s log = (log ++ flat_map pt l, Ok s')
               /\ R (pts ++ flat_map pt l) s'.
Proof.
  induction l as [|i l IH]; intros Hbody s log pts HR; simpl.
  - exists s. by rewrite !app_nil_r.
  - destruct (Hbody i s log pts) as (s1 & E1 & HR1); [by left|done|].
    destruct (IH (fun j sj lg ps Hj => Hbody j sj lg ps (list_elem_of_further _ _ _ Hj))
                s1 (log ++ pt i) (pts ++ pt i) HR1) as (s2 & E2 & HR2).
    exists s2. unfold bind. rewrite E1, E2, <- !app_assoc.
    split; [done|]. by rewrite <- app_assoc in HR2.
Qed.

(** An invariant [P] of the loop state and a property [Q] of whatever
    exception escapes. *)
Lemma for_in_inv (P : S -> Prop) (Q : exn -> Prop) (l : list I) :
  (forall i s log, P s ->
     match snd (body i s log) with Ok s' => P s' | Err e => Q e end) ->
  forall s log, P s ->
    match snd (for_in l body s log) with Ok s' => P s' | Err e => Q e end.
Proof.
  intros Hbody. induction l as [|i l IH]; intros s log HP; simpl; [done|].
  unfold bind. specialize (Hbody i s log HP).
  destruct (body i s log) as [log1 [s1|e]]; simpl in *; [by apply IH|done].
Qed.

(** The log only grows, by at most [c] entries per iteration. *)
Lemma for_in_log (c : nat) (l : list I) :
  (forall i s log, exists ext,
     fst (body i s log) = log ++ ext /\ (length ext <= c)%nat) ->
  forall s log, exists ext,
    fst (for_in l body s log) = log ++ ext /\ (length ext <= length l * c)%nat.
Proof.
  intros Hbody. induction l as [|i l IH]; intros s log; simpl.
  - exists []. by rewrite app_nil_r.
  - unfold bind. destruct (Hbody i s log) as (ext1 & E1 & L1).
    destruct (body i s log) as [log1 [s1|e]]; simpl in E1; subst log1.
    + destruct (IH s1 (log ++ ext1)) as (ext2 & E2 & L2).
      exists (ext1 ++ ext2). rewrite E2, <- app_assoc, length_app.
      split; [done|lia].
    + exists ext1. simpl. split; [done|lia].
Qed.

End LoopRules.

(** ** The sampled grid *)

Lemma elem_of_grid region step x y :
  (x, y) ∈ grid region step <->
  x ∈ xrange_items (x1 region) (x2 region + 1) step /\
  y ∈ xrange_items (y1 region) (y2 region + 1) step.
Proof.
  unfold grid. split.
  - intros H. apply list_elem_of_In, in_flat_map in H as (y' & Hy & Hx).
    apply in_map_iff in Hx as (x' & [= -> ->] & Hx).
    by split; apply list_elem_of_In.
  - intros [Hx Hy]. apply list_elem_of_In, in_flat_map. exists y.
    split; [by apply list_elem_of_In|].
    apply in_map_iff. exists x. split; [done|]. by apply list_elem_of_In.
Qed.

Lemma length_flat_map_const {A B} (g : A -> list B) (l : list A) (c : nat) :
  (forall a, a ∈ l -> length (g a) = c) ->
  length (flat_map g l) = (length l * c)%nat.
Proof.
  induction l as [|a l IH]; intros Hc; simpl; [done|].
  rewrite length_app, Hc, IH; [done| |by left].
  intros b Hb. apply Hc. by right.
Qed.

Lemma length_grid region step :
  length (grid region step) =
  (length (xrange_items (y1 region) (y2 region + 1) step) *
   length (xrange_items (x1 region) (x2 region + 1) step))%nat.
Proof.
  unfold grid. apply length_flat_map_const. intros y _. by rewrite length_map.
Qed.

Lemma NoDup_grid region step : step <> 0 -> NoDup (grid region step).
Proof.
  intros Hs. unfold grid.
  pose proof (NoDup_xrange_items (x1 region) (x2 region + 1) step Hs) as Hx.
  pose proof (NoDup_xrange_items (y1 region) (y2 region + 1) step Hs) as Hy.
  revert Hy. generalize (xrange_items (y1 region) (y2 region + 1) step).
  induction l as [|y l IH]; intros Hy; simpl; [constructor|].
  apply NoDup_cons in Hy as [Hnotin Hy]. apply NoDup_app. split; [|split].
  - apply NoDup_fmap_2; [|done]. by intros a b [= ->].
  - intros [a b] Hab Hrest. apply list_elem_of_fmap in Hab as (x' & [= -> ->] & _).
    apply list_elem_of_In, in_flat_map in Hrest as (y' & Hy' & Hin).
    apply in_map_iff in Hin as (x'' & [= _ ->] & _).
    by apply Hnotin, list_elem_of_In.
  - by apply IH.
Qed.

Lemma grid_nonempty region step :
  x1 region <= x2 region -> y1 region <= y2 region -> 0 < step ->
  grid region step <> [].
Proof.
  intros Hx Hy Hs Hnil.
  assert (Hin : (x1 region, y1 region) ∈ grid region step).
  { apply elem_of_grid. split; (apply elem_of_xrange_items; [done|]);
      exists 0; lia. }
  rewrite Hnil in Hin. by apply elem_of_nil in Hin.
Qed.

(** ** Exact sums and the running mean *)

Lemma sumQc_app l k : sumQc (l ++ k) = (sumQc l + sumQc k)%Qc.
Proof. induction l as [|a l IH]; simpl; [ring|rewrite IH; ring]. Qed.

Lemma sumQc_snoc l a : sumQc (l ++ [a]) = (sumQc l + a)%Qc.
Proof. rewrite sumQc_app. simpl. ring. Qed.

Lemma Qc_of_Z_succ_ne_0 k : 0 <= k -> Qc_of_Z (k + 1) <> 0%Qc.
Proof. intros Hk. rewrite <- Z2Qc_inj_0. intros H. apply Z2Qc_inj in H. lia. Qed.

(** One step of the running mean keeps [mean * count = sum]. *)
Lemma running_mean_step (m v total : Qc) (k : Z) :
  0 <= k -> (m * Qc_of_Z k = total)%Qc ->
  ((m + (v - m) / Qc_of_Z (k + 1)) * Qc_of_Z (k + 1) = total + v)%Qc.
Proof.
  intros Hk <-. pose proof (Qc_of_Z_succ_ne_0 k Hk) as Hne.
  rewrite Z2Qc_inj_add, Z2Qc_inj_1 in *. field. done.
Qed.

Lemma flat_map_singleton {A B} (g : A -> B) (l : list A) :
  flat_map (fun a => [g a]) l = map g l.
Proof. induction l as [|a l IH]; simpl; [done|by rewrite IH]. Qed.

(** The two nested loops of a worker, when every iteration succeeds and
    logs its own point. *)
Lemma nested_loops_ghost {S} (body : Z -> Z -> S -> Worker S)
    (R : list pixel -> S -> Prop) region step s log :
  step <> 0 ->
  (forall y x s log pts, (x, y) ∈ grid region step -> R pts s ->
     exists s', body y x s log = (log ++ [(x, y)], Ok s')
                /\ R (pts ++ [(x, y)]) s') ->
  R [] s ->
  exists s',
    for_in (xrange_items (y1 region) (y2 region + 1) step)
      (fun y s =>
         let! xs := lift (xrange (x1 region) (x2 region + 1) step) in
         for_in xs (body y) s) s log
    = (log ++ grid region step, Ok s')
    /\ R (grid region step) s'.
Proof.
  intros Hs Hbody HR.
  apply (for_in_ghost _ R
    (fun y => map (fun x => (x, y))
                (xrange_items (x1 region) (x2 region + 1) step))
    (xrange_items (y1 region) (y2 region + 1) step)) with (pts := []);
    [|done].
  intros y sy lg pts Hy HRy. unfold bind, lift. rewrite xrange_ok by done.
  rewrite <- flat_map_singleton. apply (for_in_ghost _ R); [|done].
  intros x sx lgx ptsx Hx HRx. apply Hbody; [|done].
  by apply elem_of_grid.
Qed.

(** ** [_centroid] on an image source that never raises *)

Section CentroidWorker.

Variable f : string -> string -> Z -> Z -> Qc.
Variables node_name channel : string.

Let val (p : pixel) : Qc := f node_name channel p.1 p.2.

Lemma _centroid_body_total y x s log pts :
  means_of val pts s ->
  exists s',
    _centroid_body (total_source f) node_name channel y x s log
      = (log ++ [(x, y)], Ok s')
    /\ means_of val (pts ++ [(x, y)]) s'.
Proof.
  intros [Hn Hw Hx Hy].
  assert (Hk : 0 <= n s) by lia.
  unfold _centroid_body, sample_at, total_source, bind, fdiv, ret.
  destruct (Z.eqb_spec (n s + 1) 0) as [?|_]; [lia|].
  eexists. split; [reflexivity|].
  split; cbn [n mean_x mean_y mean_weight];
    rewrite ?map_app, ?length_app; cbn [map length]; rewrite ?sumQc_snoc.
  - lia.
  - by apply running_mean_step.
  - by apply running_mean_step.
  - by apply running_mean_step.
Qed.

Lemma _centroid_total region step log :
  step <> 0 ->
  exists s,
    _centroid (total_source f) region node_name channel step log
      = (log ++ grid region step, Ok (mean_x s, mean_y s, mean_weight s))
    /\ means_of val (grid region step) s.
Proof.
  intros Hs.
  destruct (nested_loops_ghost
              (_centroid_body (total_source f) node_name channel)
              (means_of val) region step (mkAcc 0 0 0 0) log Hs)
    as (s' & E & HR).
  - intros y x s lg pts _ HR. by apply _centroid_body_total.
  - split; simpl; [done|ring|ring|ring].
  - unfold _centroid, bind at 1, lift at 1. rewrite xrange_ok by done.
    unfold bind at 1. rewrite E. by exists s'.
Qed.


End CentroidWorker.

Lemma Qc_quotient (m c t : Qc) : (m * c = t)%Qc -> c <> 0%Qc -> m = (t / c)%Qc.
Proof. intros <- Hc. field. done. Qed.

Lemma _centroid_naive (f : string -> string -> Z -> Z -> Qc)
    (region : Bounds) (node_name channel : string) (step : Z) log :
  step <> 0 -> grid region step <> [] ->
  _centroid (total_source f) region node_name channel step log
  = (log ++ grid region step,
     Ok (naive_centroid (fun p => f node_name channel p.1 p.2)
           (grid region step))).
Proof.
  intros Hs Hne.
  destruct (_centroid_total f node_name channel region step log Hs)
    as (s & E & [Hn Hmw Hmx Hmy]).
  rewrite E. unfold naive_centroid. rewrite <- Hn.
  assert (Hc : Qc_of_Z (n s) <> 0%Qc).
  { rewrite <- Z2Qc_inj_0. intros H. apply Z2Qc_inj in H.
    destruct (grid region step); [done|simpl in Hn; lia]. }
  by rewrite <- (Qc_quotient _ _ _ Hmx Hc), <- (Qc_quotient _ _ _ Hmy Hc),
    <- (Qc_quotient _ _ _ Hmw Hc).
Qed.

(** C4. On a region with x1 <= x2 and y1 <= y2 and a step of at least 1,
    [_centroid] samples exactly the grid points
    (x1 + i*step, y1 + j*step) inside the inclusive rectangle, each once,
    and its incremental means are the naive ones: the sums of value*x,
    of value*y and of value over the visited samples, each divided by
    the number of samples, in exact arithmetic. *)
Theorem _centroid_refines_naive (f : string -> string -> Z -> Z -> Qc)
    (region : Bounds) (node_name channel : string) (step : Z) :
  x1 region <= x2 region -> y1 region <= y2 region -> 1 <= step ->
  exists visited,
    _centroid (total_source f) region node_name channel step []
      = (visited,
         Ok (naive_centroid (fun p => f node_name channel p.1 p.2) visited))
    /\ NoDup visited /\ visited <> []
    /\ forall x y, (x, y) ∈ visited <->
         exists i j, 0 <= i /\ 0 <= j
           /\ x = x1 region + i * step /\ y = y1 region + j * step
           /\ x <= x2 region /\ y <= y2 region.
Proof.
  intros Hx Hy Hs.
  pose proof (grid_nonempty region step Hx Hy ltac:(lia)) as Hne.
  exists (grid region step). split; [|split; [|split]].
  - by rewrite _centroid_naive by (done || lia).
  - apply NoDup_grid. lia.
  - done.
  - intros x y. rewrite elem_of_grid, !elem_of_xrange_items by lia. split.
    + intros [(i & Hi & -> & Hix) (j & Hj & -> & Hjy)].
      exists i, j. repeat split; lia.
    + intros (i & j & Hi & Hj & -> & -> & Hix & Hjy).
      split; [exists i|exists j]; repeat split; lia.
Qed.

Lemma _centroid_refines_naive_witness :
  exists visited,
    _centroid (total_source ramp) (mkBounds 0 0 2 1) "Read1" "rgba.alpha" 1 []
      = (visited,
         Ok (naive_centroid (fun p => ramp "Read1" "rgba.alpha" p.1 p.2)
               visited))
    /\ NoDup visited /\ visited <> []
    /\ forall x y, (x, y) ∈ visited <->
         exists i j, 0 <= i /\ 0 <= j
           /\ x = x1 (mkBounds 0 0 2 1) + i * 1
           /\ y = y1 (mkBounds 0 0 2 1) + j * 1
           /\ x <= x2 (mkBounds 0 0 2 1) /\ y <= y2 (mkBounds 0 0 2 1).
Proof.
  apply (_centroid_refines_naive ramp (mkBounds 0 0 2 1)); simpl; lia.
Defined.

(** ** [_max_value] *)

Lemma py_max_l a b : (a <= py_max a b)%Qc.
Proof.
  unfold py_max. destruct (decide (a < b)%Qc); [by apply Qclt_le_weak|done].
Qed.

Lemma py_max_r a b : (b <= py_max a b)%Qc.
Proof.
  unfold py_max. destruct (decide (a < b)%Qc); [done|by apply Qcnot_lt_le].
Qed.

Lemma py_max_cases a b : py_max a b = a \/ py_max a b = b.
Proof. unfold py_max. destruct (decide (a < b)%Qc); auto. Qed.

Lemma is_maximum_snoc l m v :
  is_maximum l m -> is_maximum (l ++ [v]) (py_max m v).
Proof.
  intros [Hin Hub]. split.
  - apply elem_of_app. destruct (py_max_cases m v) as [-> | ->];
      [by left|right; by left].
  - intros w Hw. apply elem_of_app in Hw as [Hw|Hw].
    + apply Qcle_trans with m; [by apply Hub|apply py_max_l].
    + apply list_elem_of_singleton in Hw as ->. apply py_max_r.
Qed.

Section MaxWorker.

Variable f : string -> string -> Z -> Z -> Qc.
Variables node_name channel : string.

Let val (p : pixel) : Qc := f node_name channel p.1 p.2.

Lemma _max_value_total region step log :
  step <> 0 ->
  exists m,
    _max_value (total_source f) region node_name channel step log
      = (log ++ grid region step, Ok m)
    /\ is_maximum (0%Qc :: map val (grid region step)) m.
Proof.
  intros Hs. unfold _max_value, bind at 1, lift at 1.
  rewrite xrange_ok by done.
  apply (nested_loops_ghost
           (_max_value_body (total_source f) node_name channel)
           (fun pts m => is_maximum (0%Qc :: map val pts) m)); [done| |].
  - intros y x m lg pts _ HR. eexists. split; [reflexivity|].
    rewrite map_app. apply (is_maximum_snoc (0%Qc :: map val pts)), HR.
  - split; [by left|]. by intros v ->%list_elem_of_singleton.
Qed.

End MaxWorker.

(** C7. [_max_value] starts from 0.0 and returns the greatest of 0.0 and
    all the sampled values; over a region whose sampled values are all
    strictly negative it therefore returns 0.0. *)
Theorem _max_value_is_maximum_with_zero (f : string -> string -> Z -> Z -> Qc)
    (region : Bounds) (node_name channel : string) (step : Z) :
  step <> 0 ->
  exists visited m,
    _max_value (total_source f) region node_name channel step []
      = (visited, Ok m)
    /\ visited = grid region step
    /\ is_maximum
         (0%Qc :: map (fun p => f node_name channel p.1 p.2) visited) m
    /\ ((forall p, p ∈ visited -> (f node_name channel p.1 p.2 < 0)%Qc)
        -> m = 0%Qc).
Proof.
  intros Hs.
  destruct (_max_value_total f node_name channel region step [] Hs)
    as (m & E & Hmax).
  exists (grid region step), m. repeat split; try done; try apply Hmax.
  intros Hneg. destruct Hmax as [Hin Hub].
  apply elem_of_cons in Hin as [->|Hin]; [done|].
  apply list_elem_of_fmap in Hin as (p & -> & Hp).
  specialize (Hneg p Hp). specialize (Hub 0%Qc ltac:(by left)).
  exfalso. by apply (Qcle_not_lt _ _ Hub).
Qed.

Lemma _max_value_is_maximum_with_zero_witness :
  exists visited m,
    _max_value (total_source ramp) (mkBounds 0 0 2 1) "Read1" "rgba.alpha" 2 []
      = (visited, Ok m)
    /\ visited = grid (mkBounds 0 0 2 1) 2
    /\ is_maximum
         (0%Qc :: map (fun p => ramp "Read1" "rgba.alpha" p.1 p.2) visited) m
    /\ ((forall p, p ∈ visited -> (ramp "Read1" "rgba.alpha" p.1 p.2 < 0)%Qc)
        -> m = 0%Qc).
Proof.
  apply (_max_value_is_maximum_with_zero ramp (mkBounds 0 0 2 1)). lia.
Defined.

(** ** Workers on an arbitrary image source *)

Section AnySource.

Variable sample : string -> string -> Z -> Z -> sampled.
Variables node_name channel : string.

Lemma _centroid_body_no_zero_division y x s log :
  0 <= n s ->
  match snd (_centroid_body sample node_name channel y x s log) with
  | Ok s' => 0 <= n s'
  | Err e => e <> ZeroDivisionError
  end.
Proof.
  intros Hn. unfold _centroid_body, sample_at, bind, fdiv, ret, raise.
  destruct (sample node_name channel x y) as [v|msg]; simpl; [|done].
  destruct (Z.eqb_spec (n s + 1) 0) as [?|_]; [lia|]. simpl. lia.
Qed.

Lemma _centroid_no_zero_division region step log :
  snd (_centroid sample region node_name channel step log)
    <> Err ZeroDivisionError.
Proof.
  unfold _centroid, bind at 1, lift at 1, xrange at 1.
  destruct (step =? 0) eqn:Hs; simpl; [done|].
  unfold bind at 1.
  pose proof (for_in_inv
    (fun y s => let! xs := lift (xrange (x1 region) (x2 region + 1) step) in
                for_in xs (_centroid_body sample node_name channel y) s)
    (fun s => 0 <= n s) (fun e => e <> ZeroDivisionError)
    (xrange_items (y1 region) (y2 region + 1) step)) as Hinv.
  specialize (Hinv
    ltac:(intros y s lg Hn; unfold bind, lift, xrange; rewrite Hs;
          apply for_in_inv; [apply _centroid_body_no_zero_division|done])
    (mkAcc 0 0 0 0) log ltac:(simpl; lia)).
  destruct (for_in _ _ _ log) as [lg [s|e]]; simpl in *; [done|congruence].
Qed.

Lemma _max_value_nonneg region step log :
  match snd (_max_value sample region node_name channel step log) with
  | Ok m => (0 <= m)%Qc
  | Err _ => True
  end.
Proof.
  unfold _max_value, bind at 1, lift at 1, xrange at 1.
  destruct (step =? 0) eqn:Hs; simpl; [done|].
  apply (for_in_inv _ (fun m => (0 <= m)%Qc) (fun _ => True)); [|done].
  intros y m lg Hm. unfold bind, lift, xrange. rewrite Hs.
  apply (for_in_inv _ (fun m => (0 <= m)%Qc) (fun _ => True)); [|done].
  intros x m' lg' Hm'. unfold _max_value_body, sample_at, bind, ret.
  destruct (sample node_name channel x y) as [v|msg]; simpl; [|done].
  apply Qcle_trans with m'; [done|apply py_max_l].
Qed.

Lemma nested_loops_log {S} (body : Z -> Z -> S -> Worker S) region step s log :
  0 < step ->
  (forall y x s log, exists ext,
      fst (body y x s log) = log ++ ext /\ (length ext <= 1)%nat) ->
  exists ext,
    fst (for_in (xrange_items (y1 region) (y2 region + 1) step)
           (fun y s =>
              let! xs := lift (xrange (x1 region) (x2 region + 1) step) in
              for_in xs (body y) s) s log) = log ++ ext
    /\ (length ext <= loop_bound region)%nat.
Proof.
  intros Hs Hbody.
  destruct (for_in_log
    (fun y s => let! xs := lift (xrange (x1 region) (x2 region + 1) step) in
                for_in xs (body y) s)
    (length (xrange_items (x1 region) (x2 region + 1) step))
    (xrange_items (y1 region) (y2 region + 1) step)) with
    (s := s) (log := log) as (ext & E & L).
  - intros y sy lg. unfold bind, lift. rewrite xrange_ok by lia.
    destruct (for_in_log (body y) 1
                (xrange_items (x1 region) (x2 region + 1) step)
                (Hbody y) sy lg) as (ext & E & L).
    exists ext. split; [done|lia].
  - exists ext. split; [done|].
    rewrite !length_xrange_items in L. unfold loop_bound.
    pose proof (xrange_len_bound (x1 region) (x2 region + 1) step Hs).
    pose proof (xrange_len_bound (y1 region) (y2 region + 1) step Hs).
    pose proof (xrange_len_nonneg (x1 region) (x2 region + 1) step).
    pose proof (xrange_len_nonneg (y1 region) (y2 region + 1) step).
    etrans; [exact L|]. apply Nat.mul_le_mono; lia.
Qed.

Lemma _centroid_body_log y x s log :
  exists ext,
    fst (_centroid_body sample node_name channel y x s log) = log ++ ext
    /\ (length ext <= 1)%nat.
Proof.
  exists [(x, y)]. split; [|done].
  unfold _centroid_body, sample_at, bind, fdiv, ret, raise.
  destruct (sample node_name channel x y) as [v|msg]; simpl; [|done].
  by destruct (n s + 1 =? 0).
Qed.

Lemma _max_value_body_log y x m log :
  exists ext,
    fst (_max_value_body sample node_name channel y x m log) = log ++ ext
    /\ (length ext <= 1)%nat.
Proof.
  exists [(x, y)]. split; [|done].
  unfold _max_value_body, sample_at, bind, ret.
  by destruct (sample node_name channel x y) as [v|msg].
Qed.

End AnySource.

(** A zero step is rejected by [xrange] before anything is sampled. *)
Lemma workers_reject_zero_step
    (sample : string -> string -> Z -> Z -> sampled) (region : Bounds)
    (node_name channel : string) (log : list pixel) :
  _centroid sample region node_name channel 0 log = (log, Err ValueError)
  /\ _max_value sample region node_name channel 0 log = (log, Err ValueError).
Proof. done. Qed.

(** ** Aggregation *)

Lemma centroid_collect_var state results v out :
  centroid_collect state results v = Returned out ->
  centroid_var out = centroid_var v.
Proof.
  revert v. induction results as [|r rs IH]; intros v; simpl.
  - by intros [= <-].
  - destruct (negb state || is_exception r); [done|].
    destruct r as [[[r0 r1] r2]|msg]; [|done]. intros H. by apply IH in H.
Qed.

Lemma centroid_collect_true results v :
  match first_error results with
  | Some msg =>
      centroid_collect true results v = Raised (Exception (Text msg))
  | None =>
      exists out, centroid_collect true results v = Returned out
  end.
Proof.
  revert v. induction results as [|[[[r0 r1] r2]|msg] rs IH]; intros v; simpl.
  - by exists v.
  - apply IH.
  - done.
Qed.

Lemma max_value_collect_true results m :
  match first_error results with
  | Some msg =>
      max_value_collect true results m = Raised (Exception (Text msg))
  | None =>
      exists out, max_value_collect true results m = Returned out
  end.
Proof.
  revert m. induction results as [|[v|msg] rs IH]; intros m; simpl.
  - by exists m.
  - apply IH.
  - done.
Qed.

Lemma centroid_collect_raises state results v :
  failure_seen state results ->
  exists msg, centroid_collect state results v = Raised (Exception msg).
Proof.
  intros [(r & Hr & Hexc)|[-> Hne]].
  - revert v. induction results as [|r' rs IH]; intros v;
      [by apply elem_of_nil in Hr|]. simpl.
    destruct (negb state || is_exception r') eqn:Hc; [by eexists|].
    apply orb_false_iff in Hc as [_ Hr'].
    destruct r' as [[[r0 r1] r2]|msg]; [|by eexists].
    apply IH. apply elem_of_cons in Hr as [->|Hr]; [by rewrite Hexc in Hr'|done].
  - destruct results as [|r rs]; [done|]. simpl. by eexists.
Qed.

Lemma max_value_collect_raises state results m :
  failure_seen state results ->
  exists msg, max_value_collect state results m = Raised (Exception msg).
Proof.
  intros [(r & Hr & Hexc)|[-> Hne]].
  - revert m. induction results as [|r' rs IH]; intros m;
      [by apply elem_of_nil in Hr|]. simpl.
    destruct (negb state || is_exception r') eqn:Hc; [by eexists|].
    apply orb_false_iff in Hc as [_ Hr'].
    destruct r' as [v|msg]; [|by eexists].
    apply IH. apply elem_of_cons in Hr as [->|Hr]; [by rewrite Hexc in Hr'|done].
  - destruct results as [|r rs]; [done|]. simpl. by eexists.
Qed.

Lemma max_value_collect_nonneg state results m out :
  (0 <= m)%Qc -> max_value_collect state results m = Returned out ->
  (0 <= out)%Qc.
Proof.
  revert m. induction results as [|r rs IH]; intros m Hm; simpl.
  - by intros [= <-].
  - destruct (negb state || is_exception r); [done|].
    destruct r as [v|msg]; [|done]. apply IH.
    apply Qcle_trans with m; [done|apply py_max_l].
Qed.

Lemma centroid_finish_no_zero_division v :
  centroid_finish v <> Raised ZeroDivision.
Proof.
  unfold centroid_finish. destruct (centroid_var v); [|done].
  destruct (decide (0 < sum_weight v)%Qc) as [Hpos|]; [|done].
  unfold qdiv. destruct (decide (sum_weight v = 0%Qc)) as [Hz|]; [|done].
  rewrite Hz in Hpos. by apply Qclt_not_eq in Hpos.
Qed.

Lemma centroid_collect_no_zero_division state results v :
  centroid_collect state results v <> Raised ZeroDivision.
Proof.
  revert v. induction results as [|r rs IH]; intros v; simpl; [done|].
  destruct (negb state || is_exception r); [done|].
  destruct r as [[[r0 r1] r2]|msg]; [apply IH|done].
Qed.

Lemma centroid_aggregate_no_zero_division state results :
  centroid_aggregate state results <> Raised ZeroDivision.
Proof.
  unfold centroid_aggregate.
  pose proof (centroid_collect_no_zero_division state results
                (mkVars (Some (0, 0)) 0 0 0)%Qc) as Hc.
  destruct (centroid_collect _ _ _);
    [apply centroid_finish_no_zero_division|intros [= ->]; by destruct Hc].
Qed.

Lemma centroid_aggregate_not_None state results :
  centroid_aggregate state results <> Returned None.
Proof.
  unfold centroid_aggregate.
  destruct (centroid_collect _ _ _) as [v|e] eqn:E; [|done].
  apply centroid_collect_var in E. unfold centroid_finish. rewrite E. simpl.
  destruct (decide (0 < sum_weight v)%Qc); [|done].
  unfold qdiv. destruct (decide (sum_weight v = 0%Qc)); done.
Qed.

Lemma max_value_aggregate_not_None state results :
  max_value_aggregate state results <> Returned None.
Proof.
  unfold max_value_aggregate. by destruct (max_value_collect _ _ _).
Qed.

(** ** The public operations *)

Section OperationFacts.

Context {E : Type}.
Variable sample : string -> string -> Z -> Z -> sampled.
Variables (fuel : nat) (task : ProgressTask) (mp0 : E) (node : Node).
Variables (channel : string) (step : Z).

Lemma centroid_unfold `{ImageMultiProcessor E partial} :
  centroid sample fuel task mp0 node channel step
  = option_map (fun mp => centroid_aggregate (state mp) (results mp))
      (centroid_engine sample fuel task mp0 node channel step).
Proof.
  unfold centroid, centroid_engine. by destruct (poll _ _ _ _).
Qed.

Lemma max_value_unfold `{ImageMultiProcessor E Qc} :
  max_value sample fuel task mp0 node channel step
  = option_map (fun mp => max_value_aggregate (state mp) (results mp))
      (max_value_engine sample fuel task mp0 node channel step).
Proof.
  unfold max_value, max_value_engine. by destruct (poll _ _ _ _).
Qed.

(** Neither operation has a path that returns [None]. *)
Lemma centroid_never_None `{ImageMultiProcessor E partial} :
  centroid sample fuel task mp0 node channel step <> Some (Returned None).
Proof.
  rewrite centroid_unfold. destruct (centroid_engine _ _ _ _ _ _ _); [|done].
  simpl. intros [= Hn]. by apply centroid_aggregate_not_None in Hn.
Qed.

Lemma max_value_never_None `{ImageMultiProcessor E Qc} :
  max_value sample fuel task mp0 node channel step <> Some (Returned None).
Proof.
  rewrite max_value_unfold. destruct (max_value_engine _ _ _ _ _ _ _); [|done].
  simpl. intros [= Hn]. by apply max_value_aggregate_not_None in Hn.
Qed.

End OperationFacts.

(** With the state flag true, a raised message is the first captured
    error's. *)
Lemma centroid_message_when_state_true results e :
  centroid_aggregate true results = Raised e ->
  exists msg, first_error results = Some msg /\ e = Exception (Text msg).
Proof.
  unfold centroid_aggregate.
  pose proof (centroid_collect_true results (mkVars (Some (0, 0)) 0 0 0)%Qc) as Hc.
  destruct (first_error results) as [msg|].
  - rewrite Hc. intros [= <-]. by exists msg.
  - destruct Hc as (out & ->). intros Hf. exfalso.
    unfold centroid_finish in Hf. destruct (centroid_var out); [|done].
    destruct (decide (0 < sum_weight out)%Qc) as [Hpos|]; [|done].
    unfold qdiv in Hf.
    destruct (decide (sum_weight out = 0%Qc)) as [Hz|]; [|done].
    rewrite Hz in Hpos. by apply Qclt_not_eq in Hpos.
Qed.

Lemma max_value_message_when_state_true results e :
  max_value_aggregate true results = Raised e ->
  exists msg, first_error results = Some msg /\ e = Exception (Text msg).
Proof.
  unfold max_value_aggregate.
  pose proof (max_value_collect_true results 0%Qc) as Hc.
  destruct (first_error results) as [msg|].
  - rewrite Hc. intros [= <-]. by exists msg.
  - by destruct Hc as (out & ->).
Qed.

(** C1. Failing input: the user cancels at the first poll, before any
    job has completed. The engine is aborted with an empty results
    collection, and [centroid] returns (0.0, 0.0) and [max_value] 0.0,
    where the docstrings promise [None]. *)
Theorem cancelled_call_returns_numbers :
  (exists mp,
     centroid_engine uniform_one 10 cancelled_at_once
       (fresh split_first_column) (strip 3) "rgba.alpha" 1 = Some mp
     /\ aborted mp = true /\ results mp = [])
  /\ centroid uniform_one 10 cancelled_at_once (fresh split_first_column)
       (strip 3) "rgba.alpha" 1 = Some (Returned (Some (0, 0)%Qc))
  /\ max_value uniform_one 10 cancelled_at_once (fresh split_first_column)
       (strip 3) "rgba.alpha" 1 = Some (Returned (Some 0%Qc)).
Proof.
  split; [eexists; split; [vm_compute; reflexivity|by split]|]. qc_eval.
Qed.

(** C2. Failing input: two jobs, the first returns its partial result
    and the second raises "boom"; nobody cancels. The state flag is
    false, so the loop raises at the first entry of the collection: the
    message is the printed form of the first job's value, not "boom". *)
Theorem raised_message_is_first_result :
  (exists mp,
     centroid_engine fails_at_x1 10 never_cancelled
       (fresh split_first_column) (strip 2) "rgba.alpha" 1 = Some mp
     /\ state mp = false
     /\ first_error (results mp) = Some "boom"%string)
  /\ (exists mp,
     max_value_engine fails_at_x1 10 never_cancelled
       (fresh split_first_column) (strip 2) "rgba.alpha" 1 = Some mp
     /\ state mp = false
     /\ first_error (results mp) = Some "boom"%string)
  /\ centroid fails_at_x1 10 never_cancelled (fresh split_first_column)
       (strip 2) "rgba.alpha" 1
     = Some (Raised (Exception (StrOfValue (0, 0, 1)%Qc)))
  /\ max_value fails_at_x1 10 never_cancelled (fresh split_first_column)
       (strip 2) "rgba.alpha" 1
     = Some (Raised (Exception (StrOfValue 1%Qc))).
Proof.
  split; [eexists; split; [vm_compute; reflexivity|by split]|].
  split; [eexists; split; [vm_compute; reflexivity|by split]|]. qc_eval.
Qed.

(** C3, as stated, fails: after a cancellation at the first poll the
    state flag reports failure, yet nothing has been collected, the loop
    body never runs and both operations return a number. *)
Lemma failure_flag_alone_does_not_raise :
  (exists mp,
     centroid_engine uniform_one 10 cancelled_at_once
       (fresh split_first_column) (strip 3) "rgba.alpha" 1 = Some mp
     /\ state mp = false)
  /\ (exists mp,
     max_value_engine uniform_one 10 cancelled_at_once
       (fresh split_first_column) (strip 3) "rgba.alpha" 1 = Some mp
     /\ state mp = false)
  /\ centroid_aggregate false [] = Returned (Some (0, 0)%Qc)
  /\ max_value_aggregate false [] = Returned (Some 0%Qc)
  /\ centroid uniform_one 10 cancelled_at_once (fresh split_first_column)
       (strip 3) "rgba.alpha" 1 = Some (Returned (Some (0, 0)%Qc))
  /\ max_value uniform_one 10 cancelled_at_once (fresh split_first_column)
       (strip 3) "rgba.alpha" 1 = Some (Returned (Some 0%Qc)).
Proof.
  split; [eexists; split; [vm_compute; reflexivity|done]|].
  split; [eexists; split; [vm_compute; reflexivity|done]|].
  qc_eval.
Qed.

(** C3, amended. For every run in which some collected job result is an
    exception, [centroid] and [max_value] raise and return no result. *)
Theorem failed_run_raises {E1 E2 : Type}
    `{ImageMultiProcessor E1 partial} `{ImageMultiProcessor E2 Qc}
    (sample : string -> string -> Z -> Z -> sampled) (fuel : nat)
    (task : ProgressTask) (mp1 : E1) (mp2 : E2) (node : Node)
    (channel : string) (step : Z) (e1 : E1) (e2 : E2) :
  (centroid_engine sample fuel task mp1 node channel step = Some e1 ->
   exception_collected (results e1) ->
   exists msg, centroid sample fuel task mp1 node channel step
               = Some (Raised (Exception msg)))
  /\ (max_value_engine sample fuel task mp2 node channel step = Some e2 ->
      exception_collected (results e2) ->
      exists msg, max_value sample fuel task mp2 node channel step
                  = Some (Raised (Exception msg))).
Proof.
  split.
  - intros He1 Hf1. rewrite centroid_unfold, He1. simpl.
    unfold centroid_aggregate.
    destruct (centroid_collect_raises (state e1) (results e1)
                (mkVars (Some (0, 0)) 0 0 0)%Qc (or_introl Hf1))
      as (msg & ->).
    by exists msg.
  - intros He2 Hf2. rewrite max_value_unfold, He2. simpl.
    unfold max_value_aggregate.
    destruct (max_value_collect_raises (state e2) (results e2) 0%Qc
                (or_introl Hf2)) as (msg & ->).
    by exists msg.
Qed.

Lemma failed_run_raises_witness :
  (exists msg, centroid fails_at_x1 10 never_cancelled
                 (fresh split_first_column) (strip 2) "rgba.alpha" 1
               = Some (Raised (Exception msg)))
  /\ (exists msg, max_value fails_at_x1 10 never_cancelled
                    (fresh split_first_column) (strip 2) "rgba.alpha" 1
                  = Some (Raised (Exception msg))).
Proof.
  assert (Hexc : forall A (v : A),
            exception_collected [Value v; Exc "boom"]).
  { intros A v. exists (Exc "boom"). split; [|reflexivity].
    apply list_elem_of_In. simpl. right. left. reflexivity. }
  epose proof (failed_run_raises fails_at_x1 10 never_cancelled
                 (fresh split_first_column) (fresh split_first_column)
                 (strip 2) "rgba.alpha" 1 _ _) as [Hc Hm].
  split.
  - apply Hc; [vm_compute; reflexivity|apply Hexc].
  - apply Hm; [vm_compute; reflexivity|apply Hexc].
Defined.

(** C8. On a region with x1 <= x2 and y1 <= y2 and a step of at least 1,
    [_centroid] never divides by zero, whatever the image source
    answers: the count is incremented before the three divisions. The
    aggregation of [centroid] divides by the summed weight only when it
    is strictly positive, so it never divides by zero either. *)
Theorem no_division_by_zero
    (sample : string -> string -> Z -> Z -> sampled) (region : Bounds)
    (node_name channel : string) (step : Z) (log : list pixel)
    (state : bool) (results : list (JobResult partial)) :
  x1 region <= x2 region -> y1 region <= y2 region -> 1 <= step ->
  snd (_centroid sample region node_name channel step log)
    <> Err ZeroDivisionError
  /\ centroid_aggregate state results <> Raised ZeroDivision.
Proof.
  intros _ _ _. split.
  - apply _centroid_no_zero_division.
  - apply centroid_aggregate_no_zero_division.
Qed.

Lemma no_division_by_zero_witness :
  snd (_centroid fails_at_x1 (mkBounds 0 0 2 1) "Read1" "rgba.alpha" 1 [])
    <> Err ZeroDivisionError
  /\ centroid_aggregate true [Value (0, 0, 0)%Qc] <> Raised ZeroDivision.
Proof.
  apply (no_division_by_zero fails_at_x1 (mkBounds 0 0 2 1)); simpl; lia.
Defined.

(** C9. Whenever [max_value] returns a number, the number is at least
    0.0, whatever the collected partial results are; and whenever a
    worker [_max_value] returns, its result is at least 0.0, whatever
    was sampled. Both accumulators start from 0.0. *)
Theorem max_value_result_nonneg {E : Type} `{ImageMultiProcessor E Qc}
    (sample : string -> string -> Z -> Z -> sampled) (fuel : nat)
    (task : ProgressTask) (mp0 : E) (node : Node) (channel : string)
    (step : Z) (v : Qc)
    (sample' : string -> string -> Z -> Z -> sampled) (region : Bounds)
    (node_name channel' : string) (step' : Z) (log : list pixel) (m : Qc) :
  (max_value sample fuel task mp0 node channel step
     = Some (Returned (Some v)) ->
   (0 <= v)%Qc)
  /\ (snd (_max_value sample' region node_name channel' step' log) = Ok m ->
      (0 <= m)%Qc).
Proof.
  split.
  - intros Hop. rewrite max_value_unfold in Hop.
    destruct (max_value_engine _ _ _ _ _ _ _) as [mp|]; [|done].
    simpl in Hop. unfold max_value_aggregate in Hop.
    destruct (max_value_collect _ _ _) as [out|] eqn:Hc; [|done].
    injection Hop as ->.
    by apply (max_value_collect_nonneg _ _ _ _ (Qcle_refl 0) Hc).
  - intros Hw.
    pose proof (_max_value_nonneg sample' node_name channel' region step' log)
      as Hn. by rewrite Hw in Hn.
Qed.

Lemma max_value_result_nonneg_witness :
  max_value uniform_one 10 cancelled_at_once (fresh split_first_column)
    (strip 3) "rgba.alpha" 0 = Some (Returned (Some 0%Qc))
  /\ snd (_max_value uniform_one (mkBounds 0 0 2 0) "Read1"
            "rgba.alpha" 1 []) = Ok 1%Qc
  /\ (0 <= 0)%Qc /\ (0 <= 1)%Qc.
Proof.
  split; [qc_eval|]. split; [qc_eval|].
  destruct (max_value_result_nonneg uniform_one 10 cancelled_at_once
              (fresh split_first_column) (strip 3) "rgba.alpha" 0 0%Qc
              uniform_one (mkBounds 0 0 2 0) "Read1" "rgba.alpha" 1 [] 1%Qc)
    as [Hv Hm].
  split.
  - apply Hv. qc_eval.
  - apply Hm. qc_eval.
Defined.

(** C10. For every region with integer bounds and every step of at
    least 1, [_centroid] and [_max_value] terminate: each returns after
    at most (y2 - y1 + 1) * (x2 - x1 + 1) executions of its loop body,
    one sample each, whatever the image source answers. *)
Theorem workers_terminate
    (sample : string -> string -> Z -> Z -> sampled) (region : Bounds)
    (node_name channel : string) (step : Z) (log : list pixel) :
  1 <= step ->
  (exists ext r,
     _centroid sample region node_name channel step log = (log ++ ext, r)
     /\ (length ext <= loop_bound region)%nat)
  /\ (exists ext r,
     _max_value sample region node_name channel step log = (log ++ ext, r)
     /\ (length ext <= loop_bound region)%nat).
Proof.
  intros Hs. split.
  - destruct (nested_loops_log (_centroid_body sample node_name channel)
                region step (mkAcc 0 0 0 0) log ltac:(lia)
                (_centroid_body_log sample node_name channel))
      as (ext & E & L).
    unfold _centroid, bind at 1, lift at 1. rewrite xrange_ok by lia.
    unfold bind at 1. destruct (for_in _ _ _ log) as [lg [s|e]];
      simpl in E; subst lg; eauto.
  - destruct (nested_loops_log (_max_value_body sample node_name channel)
                region step 0%Qc log ltac:(lia)
                (_max_value_body_log sample node_name channel))
      as (ext & E & L).
    unfold _max_value, bind at 1, lift at 1. rewrite xrange_ok by lia.
    destruct (for_in _ _ _ log) as [lg r]; simpl in E; subst lg; eauto.
Qed.

Lemma workers_terminate_witness :
  (exists ext r,
     _centroid fails_at_x1 (mkBounds 0 0 2 1) "Read1" "rgba.alpha" 1 []
       = ([] ++ ext, r)
     /\ (length ext <= loop_bound (mkBounds 0 0 2 1))%nat)
  /\ (exists ext r,
     _max_value fails_at_x1 (mkBounds 0 0 2 1) "Read1" "rgba.alpha" 1 []
       = ([] ++ ext, r)
     /\ (length ext <= loop_bound (mkBounds 0 0 2 1))%nat).
Proof.
  apply (workers_terminate fails_at_x1 (mkBounds 0 0 2 1)). lia.
Defined.

(** ** Aggregating the partial results of a completed run *)

Lemma centroid_collect_values (ps : list partial) v :
  centroid_collect true (map Value ps) v
  = Returned
      (mkVars (centroid_var v)
         (sum_x v + sumQc (map (fun p => p.1.1) ps))
         (sum_y v + sumQc (map (fun p => p.1.2) ps))
         (sum_weight v + sumQc (map (fun p => p.2) ps)))%Qc.
Proof.
  revert v. induction ps as [|[[r0 r1] r2] ps IH]; intros [cv sx sy sw]; simpl.
  - f_equal. f_equal; ring.
  - rewrite IH. simpl. f_equal. f_equal; ring.
Qed.

Lemma centroid_aggregate_values (ps : list partial) :
  centroid_aggregate true (map Value ps)
  = Returned (Some (normalized (sumQc (map (fun p => p.1.1) ps))
                      (sumQc (map (fun p => p.1.2) ps))
                      (sumQc (map (fun p => p.2) ps)))).
Proof.
  unfold centroid_aggregate. rewrite centroid_collect_values.
  unfold centroid_finish, normalized, qdiv. simpl.
  rewrite !Qcplus_0_l.
  destruct (decide (0 < _)%Qc) as [Hpos|]; [|done].
  destruct (decide (_ = 0%Qc)) as [Hz|]; [|done].
  rewrite Hz in Hpos. by apply Qclt_not_eq in Hpos.
Qed.




(** ** The centroid of a uniform region *)

Lemma sumQc_perm (l k : list Qc) : Permutation l k -> sumQc l = sumQc k.
Proof.
  induction 1 as [|a l k _ IH|a b l|l k m _ IH1 _ IH2]; simpl.
  - done.
  - by rewrite IH.
  - ring.
  - by rewrite IH1.
Qed.

Lemma sumQc_const (c : Qc) {A} (l : list A) :
  sumQc (map (fun _ => c) l) = (Qc_of_Z (Z.of_nat (length l)) * c)%Qc.
Proof.
  induction l as [|a l IH]; cbn [map length sumQc foldr].
  - change (Z.of_nat 0) with 0. rewrite Z2Qc_inj_0. ring.
  - fold (sumQc (map (fun _ => c) l)). rewrite IH, Nat2Z.inj_succ.
    unfold Z.succ. rewrite Z2Qc_inj_add, Z2Qc_inj_1. ring.
Qed.

(** Twice the sum of an arithmetic progression. *)
Lemma sumQc_progression (a d : Z) (m : nat) :
  (2 * sumQc (map (fun i : nat => Qc_of_Z (a + Z.of_nat i * d)) (seq 0 m)))%Qc
  = (Qc_of_Z (Z.of_nat m) * Qc_of_Z (2 * a + (Z.of_nat m - 1) * d))%Qc.
Proof.
  induction m as [|m IH].
  - cbn [seq map sumQc foldr]. change (Z.of_nat 0) with 0.
    rewrite Z2Qc_inj_0. ring.
  - rewrite seq_S, map_app. cbn [map]. rewrite sumQc_snoc, Nat.add_0_l.
    rewrite Qcmult_plus_distr_r, IH, Nat2Z.inj_succ. unfold Z.succ.
    rewrite <- Z2Qc_inj_2, <- !Z2Qc_inj_mul, <- !Z2Qc_inj_add.
    f_equal. lia.
Qed.

Lemma xrange_items_last start stop step :
  0 < step -> start <= stop -> (step | stop - start) ->
  (Z.of_nat (length (xrange_items start (stop + 1) step)) - 1) * step
  = stop - start.
Proof.
  intros Hs Hle [q Hq]. rewrite length_xrange_items.
  pose proof (xrange_len_nonneg start (stop + 1) step) as Hn.
  rewrite Z2Nat.id by done. unfold xrange_len.
  destruct (Z.ltb_spec 0 step); [|lia].
  destruct (Z.ltb_spec start (stop + 1)); [|lia].
  replace (stop + 1 - start - 1) with (q * step) by lia.
  rewrite Z.div_mul by lia. lia.
Qed.

Lemma sumQc_xrange_items start stop step :
  0 < step -> start <= stop -> (step | stop - start) ->
  (2 * sumQc (map Qc_of_Z (xrange_items start (stop + 1) step)))%Qc
  = (Qc_of_Z (Z.of_nat (length (xrange_items start (stop + 1) step)))
     * Qc_of_Z (start + stop))%Qc.
Proof.
  intros Hs Hle Hdiv.
  pose proof (xrange_items_last _ _ _ Hs Hle Hdiv) as Hlast.
  rewrite length_xrange_items in *. unfold xrange_items.
  rewrite map_map, sumQc_progression. do 2 f_equal. lia.
Qed.

Lemma sumQc_rows_x (xs ys : list Z) :
  sumQc (map (fun p : pixel => Qc_of_Z p.1)
           (flat_map (fun y => map (fun x => (x, y)) xs) ys))
  = (Qc_of_Z (Z.of_nat (length ys)) * sumQc (map Qc_of_Z xs))%Qc.
Proof.
  induction ys as [|y ys IH]; cbn [flat_map length].
  - cbn [map sumQc foldr]. change (Z.of_nat 0) with 0.
    rewrite Z2Qc_inj_0. ring.
  - rewrite map_app, sumQc_app, map_map.
    etrans; [apply (f_equal (Qcplus _)), IH|].
    rewrite Nat2Z.inj_succ. unfold Z.succ.
    rewrite Z2Qc_inj_add, Z2Qc_inj_1. cbn [fst].
    change (fun x : Z => Qc_of_Z x) with Qc_of_Z. ring.
Qed.

Lemma sumQc_rows_y (xs ys : list Z) :
  sumQc (map (fun p : pixel => Qc_of_Z p.2)
           (flat_map (fun y => map (fun x => (x, y)) xs) ys))
  = (Qc_of_Z (Z.of_nat (length xs)) * sumQc (map Qc_of_Z ys))%Qc.
Proof.
  induction ys as [|y ys IH]; cbn [flat_map length].
  - cbn [map sumQc foldr]. ring.
  - rewrite map_app, sumQc_app, map_map.
    etrans; [apply (f_equal (Qcplus _)), IH|].
    cbn [snd map]. rewrite (sumQc_const (Qc_of_Z y)).
    change (sumQc (Qc_of_Z y :: map Qc_of_Z ys))
      with (Qc_of_Z y + sumQc (map Qc_of_Z ys))%Qc. ring.
Qed.

(** Twice the sums of the coordinates over the sampled grid. *)
Lemma grid_sum_x region step :
  0 < step -> x1 region <= x2 region -> (step | x2 region - x1 region) ->
  (2 * sumQc (map (fun p : pixel => Qc_of_Z p.1) (grid region step)))%Qc
  = (Qc_of_Z (Z.of_nat (length (grid region step)))
     * Qc_of_Z (x1 region + x2 region))%Qc.
Proof.
  intros Hs Hle Hdiv. rewrite length_grid. unfold grid.
  rewrite sumQc_rows_x, Nat2Z.inj_mul, Z2Qc_inj_mul.
  rewrite <- Qcmult_assoc, <- (sumQc_xrange_items _ _ _ Hs Hle Hdiv). ring.
Qed.

Lemma grid_sum_y region step :
  0 < step -> y1 region <= y2 region -> (step | y2 region - y1 region) ->
  (2 * sumQc (map (fun p : pixel => Qc_of_Z p.2) (grid region step)))%Qc
  = (Qc_of_Z (Z.of_nat (length (grid region step)))
     * Qc_of_Z (y1 region + y2 region))%Qc.
Proof.
  intros Hs Hle Hdiv. rewrite length_grid. unfold grid.
  rewrite sumQc_rows_y, Nat2Z.inj_mul, Z2Qc_inj_mul.
  rewrite (Qcmult_comm (Qc_of_Z (Z.of_nat (length (xrange_items (y1 region) _ _))))).
  rewrite <- Qcmult_assoc, <- (sumQc_xrange_items _ _ _ Hs Hle Hdiv). ring.
Qed.

Lemma sumQc_weighted_ones {A} (val w : A -> Qc) (l : list A) :
  (forall a, a ∈ l -> val a = 1%Qc) ->
  sumQc (map (fun a => val a * w a)%Qc l) = sumQc (map w l).
Proof.
  intros Hone. f_equal. apply map_ext_in. intros a Ha.
  rewrite (Hone a) by (by apply list_elem_of_In). ring.
Qed.

(** Sums of per-sub-region quotients by a common count. *)
Lemma sumQc_quotients {A B} (h : B -> Qc) (g : A -> list B) (c : Qc)
    (l : list A) :
  sumQc (map (fun a => sumQc (map h (g a)) / c)%Qc l)
  = (sumQc (map h (flat_map g l)) / c)%Qc.
Proof.
  induction l as [|a l IH]; cbn [map flat_map].
  - cbn [sumQc foldr]. unfold Qcdiv. ring.
  - rewrite map_app, sumQc_app.
    change (sumQc (?x :: ?r)) with (x + sumQc r)%Qc.
    rewrite IH. unfold Qcdiv. ring.
Qed.

(** C5. Failing input: a row of three pixels of value 1.0, split after
    its first column. The sub-regions partition the row exactly and the
    stride 1 divides it, yet the aggregation gives x = 3/4 where the
    centroid of the channel, the centre of the row, is x = 1: the
    workers return means, and [centroid] adds them up without the
    number of samples behind each. The same happens where the
    sub-regions hold equally many samples but sample off the region's
    grid: a row of seven pixels at stride 2, split after its third
    column, gives x = 5/2 where the centre is x = 3. All the numbers
    involved are exact in binary floating point. *)
Lemma uneven_partition_misses_center :
  (is_partition (split_first_column (mkBounds 0 0 2 0)) (mkBounds 0 0 2 0)
   /\ evenly_divides 1 (mkBounds 0 0 2 0)
   /\ centroid_aggregate true
        (partials uniform_one (split_first_column (mkBounds 0 0 2 0))
           "Read1" "rgba.alpha" 1)
      = Returned (Some (Q2Qc (3 # 4), 0%Qc))
   /\ geometric_center (mkBounds 0 0 2 0) = (1, 0)%Qc
   /\ Q2Qc (3 # 4) <> 1%Qc)
  /\ (is_partition [mkBounds 0 0 2 0; mkBounds 3 0 6 0] (mkBounds 0 0 6 0)
      /\ evenly_divides 2 (mkBounds 0 0 6 0)
      /\ centroid_aggregate true
           (partials uniform_one [mkBounds 0 0 2 0; mkBounds 3 0 6 0]
              "Read1" "rgba.alpha" 2)
         = Returned (Some (Q2Qc (5 # 2), 0%Qc))
      /\ geometric_center (mkBounds 0 0 6 0) = (Qc_of_Z 3, 0%Qc)
      /\ Q2Qc (5 # 2) <> Qc_of_Z 3).
Proof.
  split.
  - split; [unfold is_partition; vm_compute; reflexivity|].
    split; [split; apply Z.divide_1_l|].
    split; [qc_eval|]. split; [qc_eval|].
    intros H. apply (f_equal this) in H. vm_compute in H. discriminate.
  - split; [unfold is_partition; vm_compute; reflexivity|].
    split; [split; [exists 3|exists 0]; reflexivity|].
    split; [qc_eval|]. split; [qc_eval|].
    intros H. apply (f_equal this) in H. vm_compute in H. discriminate.
Qed.

(** Where the aggregation of a uniform region does reach the centre, in
    exact arithmetic: the sub-regions contribute the same number of
    samples, and their samples are together exactly the samples of the
    region. *)
Theorem uniform_centroid_is_center (f : string -> string -> Z -> Z -> Qc)
    (region : Bounds) (subs : list Bounds) (node_name channel : string)
    (step : Z) :
  x1 region <= x2 region -> y1 region <= y2 region -> 1 <= step ->
  is_partition subs region ->
  evenly_divides step region ->
  (forall b p, b ∈ subs -> p ∈ grid b step ->
     f node_name channel p.1 p.2 = 1%Qc) ->
  (forall b b', b ∈ subs -> b' ∈ subs ->
     length (grid b step) = length (grid b' step)) ->
  Permutation (flat_map (fun b => grid b step) subs) (grid region step) ->
  centroid_aggregate true
    (partials (total_source f) subs node_name channel step)
  = Returned (Some (geometric_center region)).
Proof.
  intros Hx Hy Hs _ [Hdx Hdy] Hone Hcount Hperm.
  set (val := fun p : pixel => f node_name channel p.1 p.2).
  pose proof (grid_nonempty region step Hx Hy ltac:(lia)) as Hne.
  (* the common number of samples *)
  destruct subs as [|b0 subs'];
    [simpl in Hperm; apply Permutation_nil in Hperm; done|].
  set (subs := b0 :: subs') in *.
  set (c := length (grid b0 step)).
  assert (Hc : forall b, b ∈ subs -> length (grid b step) = c).
  { intros b Hb. apply Hcount; [done|by left]. }
  assert (Hlen : length (grid region step) = (length subs * c)%nat).
  { rewrite <- (Permutation_length Hperm). by apply length_flat_map_const. }
  assert (Hcpos : c <> 0%nat).
  { intros Hz. rewrite Hz, Nat.mul_0_r in Hlen.
    by destruct (grid region step). }
  assert (HC : Qc_of_Z (Z.of_nat c) <> 0%Qc).
  { rewrite <- Z2Qc_inj_0. intros H. apply Z2Qc_inj in H. lia. }
  assert (Hgpos : (0 < length (grid region step))%nat).
  { destruct (grid region step); [done|simpl; lia]. }
  assert (HN : Qc_of_Z (Z.of_nat (length (grid region step))) <> 0%Qc).
  { rewrite <- Z2Qc_inj_0. intros H. apply Z2Qc_inj in H. lia. }
  assert (HNpos : (0 < Qc_of_Z (Z.of_nat (length (grid region step))))%Qc).
  { rewrite <- Z2Qc_inj_0. apply (proj1 (Z2Qc_inj_lt _ _)). lia. }
  assert (HCpos : (0 < Qc_of_Z (Z.of_nat c))%Qc).
  { rewrite <- Z2Qc_inj_0. apply (proj1 (Z2Qc_inj_lt _ _)). lia. }
  (* the partial results *)
  assert (Hps : partials (total_source f) subs node_name channel step
                = map Value
                    (map (fun b =>
                       (sumQc (map (fun p : pixel => Qc_of_Z p.1) (grid b step))
                          / Qc_of_Z (Z.of_nat c),
                        sumQc (map (fun p : pixel => Qc_of_Z p.2) (grid b step))
                          / Qc_of_Z (Z.of_nat c),
                        sumQc (map (fun _ : pixel => 1) (grid b step))
                          / Qc_of_Z (Z.of_nat c))%Qc) subs)).
  { unfold partials. rewrite map_map. apply map_ext_in.
    intros b Hb%list_elem_of_In. unfold job_result.
    rewrite _centroid_naive; [|lia|].
    - cbn [snd]. unfold naive_centroid. rewrite (Hc b Hb).
      rewrite !(sumQc_weighted_ones val) by (intros p Hp; by apply (Hone b)).
      do 3 f_equal. f_equal. apply map_ext_in. intros p Hp.
      by apply (Hone b), list_elem_of_In.
    - intros Hnil. specialize (Hc b Hb). rewrite Hnil in Hc. simpl in Hc. lia. }
  rewrite Hps, centroid_aggregate_values, !map_map. cbn [fst snd].
  rewrite !sumQc_quotients.
  rewrite !(sumQc_perm _ _ (Permutation_map _ Hperm)).
  rewrite sumQc_const, Qcmult_1_r.
  pose proof (grid_sum_x region step ltac:(lia) Hx Hdx) as Hsx.
  pose proof (grid_sum_y region step ltac:(lia) Hy Hdy) as Hsy.
  set (N := Qc_of_Z (Z.of_nat (length (grid region step)))) in *.
  set (C := Qc_of_Z (Z.of_nat c)) in *.
  set (Tx := sumQc (map (fun p : pixel => Qc_of_Z p.1) (grid region step))) in *.
  set (Ty := sumQc (map (fun p : pixel => Qc_of_Z p.2) (grid region step))) in *.
  assert (Hpos : (0 < N / C)%Qc).
  { apply Qcmult_pos_pos; [done|by apply Qcinv_pos]. }
  unfold normalized, geometric_center.
  destruct (decide (0 < N / C)%Qc); [|done].
  assert (H2 : (1 + 1)%Qc <> 0%Qc) by done.
  rewrite Qcmult_comm in Hsx. apply Qc_quotient in Hsx; [|done].
  rewrite Qcmult_comm in Hsy. apply Qc_quotient in Hsy; [|done].
  rewrite Hsx, Hsy. do 3 f_equal; field; done.
Qed.

Lemma uniform_centroid_is_center_witness :
  is_partition [mkBounds 0 0 4 1; mkBounds 0 2 4 2] (mkBounds 0 0 4 2)
  /\ evenly_divides 2 (mkBounds 0 0 4 2)
  /\ centroid_aggregate true
       (partials (total_source (fun _ _ _ _ => 1%Qc))
          [mkBounds 0 0 4 1; mkBounds 0 2 4 2] "Read1" "rgba.alpha" 2)
     = Returned (Some (geometric_center (mkBounds 0 0 4 2))).
Proof.
  assert (Hp : is_partition [mkBounds 0 0 4 1; mkBounds 0 2 4 2]
                 (mkBounds 0 0 4 2)).
  { unfold is_partition. vm_compute. reflexivity. }
  assert (Hd : evenly_divides 2 (mkBounds 0 0 4 2)).
  { split; [exists 2|exists 1]; reflexivity. }
  split; [exact Hp|]. split; [exact Hd|].
  apply (uniform_centroid_is_center (fun _ _ _ _ => 1%Qc) (mkBounds 0 0 4 2)
           [mkBounds 0 0 4 1; mkBounds 0 2 4 2]).
  - simpl. lia.
  - simpl. lia.
  - lia.
  - exact Hp.
  - exact Hd.
  - reflexivity.
  - intros b b' Hb%list_elem_of_In Hb'%list_elem_of_In. simpl in Hb, Hb'.
    destruct Hb as [<-|[<-|[]]], Hb' as [<-|[<-|[]]]; reflexivity.
  - vm_compute. reflexivity.
Defined.

(** * Further properties of the workers *)

Lemma for_in_app {I S} (body : I -> S -> Worker S) (l1 l2 : list I) s log :
  for_in (l1 ++ l2) body s log
  = (let! s' := for_in l1 body s in for_in l2 body s') log.
Proof.
  revert s log. induction l1 as [|i l1 IH]; intros s log; simpl; [done|].
  unfold bind.
  destruct (body i s log) as [lg [s1|e]]; [|done].
  rewrite IH. done.
Qed.

Lemma for_in_map {I J S} (g : I -> J) (body : J -> S -> Worker S)
    (l : list I) s log :
  for_in (map g l) body s log = for_in l (fun i => body (g i)) s log.
Proof.
  revert s log. induction l as [|i l IH]; intros s log; simpl; [done|].
  unfold bind. destruct (body (g i) s log) as [lg [s1|e]]; [apply IH|done].
Qed.

Lemma bind_ext {A B} (m m' : Worker A) (k k' : A -> Worker B) log :
  (forall lg, m lg = m' lg) -> (forall a lg, k a lg = k' a lg) ->
  bind m k log = bind m' k' log.
Proof.
  intros Hm Hk. unfold bind. rewrite Hm.
  destruct (m' log) as [lg [a|e]]; [apply Hk|done].
Qed.

(** The two nested loops are one loop over the grid, rows outermost. *)
Lemma nested_loops_flatten {S} (body : Z -> Z -> S -> Worker S)
    region step s log :
  step <> 0 ->
  for_in (xrange_items (y1 region) (y2 region + 1) step)
    (fun y s =>
       let! xs := lift (xrange (x1 region) (x2 region + 1) step) in
       for_in xs (body y) s) s log
  = for_in (grid region step) (fun p s => body p.2 p.1 s) s log.
Proof.
  intros Hs. unfold grid. rewrite (xrange_ok (x1 region)) by done.
  revert s log.
  induction (xrange_items (y1 region) (y2 region + 1) step) as [|y ys IH];
    intros s log; [done|].
  cbn [for_in flat_map]. rewrite for_in_app. apply bind_ext.
  - intros lg. by rewrite for_in_map.
  - intros s1 lg. apply IH.
Qed.

Lemma _centroid_flat (sample : string -> string -> Z -> Z -> sampled)
    region node_name channel step log :
  step <> 0 ->
  _centroid sample region node_name channel step log
  = (let! s := for_in (grid region step)
                 (fun p s => _centroid_body sample node_name channel p.2 p.1 s)
                 (mkAcc 0 0 0 0) in
     ret (mean_x s, mean_y s, mean_weight s)) log.
Proof.
  intros Hs. unfold _centroid, bind at 1, lift at 1.
  rewrite (xrange_ok (y1 region)) by done.
  apply bind_ext; [|done]. intros lg. by apply nested_loops_flatten.
Qed.

Lemma _max_value_flat (sample : string -> string -> Z -> Z -> sampled)
    region node_name channel step log :
  step <> 0 ->
  _max_value sample region node_name channel step log
  = for_in (grid region step)
      (fun p m => _max_value_body sample node_name channel p.2 p.1 m)
      0%Qc log.
Proof.
  intros Hs. unfold _max_value, bind at 1, lift at 1.
  rewrite (xrange_ok (y1 region)) by done. by apply nested_loops_flatten.
Qed.

(** X1. The region [centroid] and [max_value] scan is the bounding box
    of the node: at stride 1 its pixels are those with
    x <= px < x + w and y <= py < y + h, and there are w * h of them
    (none when w or h is not positive). *)
Theorem node_region_pixels (node : Node) (px py : Z) :
  ((px, py) ∈ grid (node_region node) 1 <->
   bbox_x node <= px < bbox_x node + bbox_w node
   /\ bbox_y node <= py < bbox_y node + bbox_h node)
  /\ length (grid (node_region node) 1)
     = (Z.to_nat (bbox_h node) * Z.to_nat (bbox_w node))%nat.
Proof.
  split.
  - rewrite elem_of_grid, !elem_of_xrange_items by lia. simpl. split.
    + intros [(i & Hi & -> & Hix) (j & Hj & -> & Hjy)]. lia.
    + intros [Hx Hy]. split.
      * exists (px - bbox_x node). lia.
      * exists (py - bbox_y node). lia.
  - rewrite length_grid, !length_xrange_items. simpl. unfold xrange_len.
    change (0 <? 1) with true. cbn iota.
    f_equal.
    + destruct (Z.ltb_spec (bbox_y node) (bbox_h node + bbox_y node - 1 + 1));
        [|lia].
      rewrite Z.div_1_r. lia.
    + destruct (Z.ltb_spec (bbox_x node) (bbox_w node + bbox_x node - 1 + 1));
        [|lia].
      rewrite Z.div_1_r. lia.
Qed.

Lemma flat_map_nil_rows {A B} (l : list A) :
  flat_map (fun _ : A => @nil B) l = [].
Proof. induction l as [|a l IH]; simpl; [done|exact IH]. Qed.

Lemma xrange_items_empty start stop step :
  xrange_len start stop step = 0 -> xrange_items start stop step = [].
Proof. intros Hl. unfold xrange_items. by rewrite Hl. Qed.

Lemma grid_empty region step :
  (0 < step /\ (x2 region < x1 region \/ y2 region < y1 region))
  \/ (step < 0 /\ x1 region <= x2 region /\ y1 region <= y2 region) ->
  grid region step = [].
Proof.
  intros Hcase. unfold grid.
  assert (Hxy : xrange_len (x1 region) (x2 region + 1) step = 0
                \/ xrange_len (y1 region) (y2 region + 1) step = 0).
  { unfold xrange_len. destruct Hcase as [[Hs [Hx|Hy]]|(Hs & Hx & Hy)].
    - left. destruct (Z.ltb_spec 0 step); [|lia].
      by destruct (Z.ltb_spec (x1 region) (x2 region + 1)); [lia|].
    - right. destruct (Z.ltb_spec 0 step); [|lia].
      by destruct (Z.ltb_spec (y1 region) (y2 region + 1)); [lia|].
    - left. destruct (Z.ltb_spec 0 step); [lia|].
      by destruct (Z.ltb_spec (x2 region + 1) (x1 region)); [lia|]. }
  destruct Hxy as [Hx|Hy].
  - rewrite (xrange_items_empty _ _ _ Hx). simpl. apply flat_map_nil_rows.
  - by rewrite (xrange_items_empty _ _ _ Hy).
Qed.

(** X2. Over an empty rectangle (x2 < x1 or y2 < y1) at a positive step,
    and over any rectangle at a negative step, the workers sample
    nothing: [_centroid] returns (0.0, 0.0, 0.0) and [_max_value] 0.0,
    the initial values of their accumulators. *)
Theorem workers_on_empty_scan
    (sample : string -> string -> Z -> Z -> sampled) (region : Bounds)
    (node_name channel : string) (step : Z) (log : list pixel) :
  (0 < step /\ (x2 region < x1 region \/ y2 region < y1 region))
  \/ (step < 0 /\ x1 region <= x2 region /\ y1 region <= y2 region) ->
  _centroid sample region node_name channel step log
    = (log, Ok (0, 0, 0)%Qc)
  /\ _max_value sample region node_name channel step log = (log, Ok 0%Qc).
Proof.
  intros Hcase. pose proof (grid_empty region step Hcase) as Hg.
  assert (Hs : step <> 0) by lia.
  by rewrite _centroid_flat, _max_value_flat, Hg by done.
Qed.

Lemma workers_on_empty_scan_witness :
  _centroid uniform_one (mkBounds 0 0 4 2) "Read1" "rgba.alpha" (-1) []
    = ([], Ok (0, 0, 0)%Qc)
  /\ _max_value uniform_one (mkBounds 0 0 4 2) "Read1" "rgba.alpha" (-1) []
     = ([], Ok 0%Qc).
Proof.
  apply (workers_on_empty_scan uniform_one (mkBounds 0 0 4 2)).
  right. simpl. lia.
Defined.

Lemma flat_map_id {A} (l : list A) : flat_map (fun a => [a]) l = l.
Proof. by rewrite (flat_map_singleton (fun a => a)), map_id. Qed.

Section Failure.

Variable sample : string -> string -> Z -> Z -> sampled.
Variables node_name channel : string.

Lemma _centroid_prefix_ok (pre : list pixel) s log :
  0 <= n s ->
  (forall q, q ∈ pre -> answers sample node_name channel q) ->
  exists s',
    for_in pre (fun p s => _centroid_body sample node_name channel p.2 p.1 s)
      s log = (log ++ pre, Ok s')
    /\ 0 <= n s'.
Proof.
  intros Hn Hans.
  destruct (for_in_ghost
    (fun p s => _centroid_body sample node_name channel p.2 p.1 s)
    (fun _ s => 0 <= n s) (fun a => [a]) pre) with (s := s) (log := log)
    (pts := @nil pixel) as (s' & E & Hn');
    [|done|rewrite flat_map_id in E; by exists s'].
  intros [x y] s0 lg _ Hq Hn0. destruct (Hans _ Hq) as (v & Hv).
  unfold _centroid_body, sample_at, bind, fdiv, ret. simpl in *. rewrite Hv.
  destruct (Z.eqb_spec (n s0 + 1) 0) as [?|_]; [lia|].
  eexists. split; [reflexivity|]. simpl. lia.
Qed.

Lemma _max_value_prefix_ok (pre : list pixel) m log :
  (forall q, q ∈ pre -> answers sample node_name channel q) ->
  exists m',
    for_in pre (fun p m => _max_value_body sample node_name channel p.2 p.1 m)
      m log = (log ++ pre, Ok m').
Proof.
  intros Hans.
  destruct (for_in_ghost
    (fun p m => _max_value_body sample node_name channel p.2 p.1 m)
    (fun _ _ => True) (fun a => [a]) pre) with (s := m) (log := log)
    (pts := @nil pixel) as (m' & E & _);
    [|done|rewrite flat_map_id in E; by exists m'].
  intros [x y] m0 lg _ Hq _. destruct (Hans _ Hq) as (v & Hv).
  unfold _max_value_body, sample_at, bind, ret. simpl in *. rewrite Hv.
  by eexists.
Qed.

End Failure.

(** X3. If the image source raises at a sampled pixel, having answered
    at every pixel scanned before it (rows outermost), both workers
    stop there: they raise that error and sample nothing after it. *)
Theorem worker_failure_propagates
    (sample : string -> string -> Z -> Z -> sampled) (region : Bounds)
    (node_name channel : string) (step : Z) (log pre post : list pixel)
    (p : pixel) (msg : string) :
  step <> 0 ->
  grid region step = pre ++ p :: post ->
  (forall q, q ∈ pre -> answers sample node_name channel q) ->
  sample node_name channel p.1 p.2 = SampleFailed msg ->
  _centroid sample region node_name channel step log
    = (log ++ pre ++ [p], Err (SampleError msg))
  /\ _max_value sample region node_name channel step log
     = (log ++ pre ++ [p], Err (SampleError msg)).
Proof.
  intros Hs Hg Hans Hfail.
  rewrite _centroid_flat, _max_value_flat, Hg by done. split.
  - destruct (_centroid_prefix_ok sample node_name channel pre
                (mkAcc 0 0 0 0) log ltac:(simpl; lia) Hans) as (s' & E & _).
    unfold bind at 1. rewrite for_in_app. unfold bind at 1. rewrite E.
    cbn [for_in]. unfold bind at 1, _centroid_body at 1, bind at 1, sample_at.
    rewrite Hfail. destruct p. by rewrite <- app_assoc.
  - destruct (_max_value_prefix_ok sample node_name channel pre 0%Qc log Hans)
      as (m' & E).
    rewrite for_in_app. unfold bind at 1. rewrite E.
    cbn [for_in]. unfold bind at 1, _max_value_body at 1, bind at 1, sample_at.
    rewrite Hfail. destruct p. by rewrite <- app_assoc.
Qed.

Lemma worker_failure_propagates_witness :
  _centroid fails_at_x1 (mkBounds 0 0 2 1) "Read1" "rgba.alpha" 1 []
    = ([] ++ [(0, 0)] ++ [(1, 0)], Err (SampleError "boom"))
  /\ _max_value fails_at_x1 (mkBounds 0 0 2 1) "Read1" "rgba.alpha" 1 []
     = ([] ++ [(0, 0)] ++ [(1, 0)], Err (SampleError "boom")).
Proof.
  apply (worker_failure_propagates fails_at_x1 (mkBounds 0 0 2 1)
           "Read1" "rgba.alpha" 1 [] [(0, 0)]
           [(2, 0); (0, 1); (1, 1); (2, 1)] (1, 0) "boom").
  - lia.
  - reflexivity.
  - intros q Hq%list_elem_of_singleton. subst q. by exists 1%Qc.
  - reflexivity.
Defined.

Lemma xrange_len_inclusive start stop step :
  0 < step -> start <= stop ->
  xrange_len start (stop + 1) step = (stop - start) / step + 1.
Proof.
  intros Hs Hle. unfold xrange_len.
  destruct (Z.ltb_spec 0 step); [|lia].
  destruct (Z.ltb_spec start (stop + 1)); [|lia].
  do 2 f_equal. lia.
Qed.

(** X4. On a region with x1 <= x2 and y1 <= y2, at a step of at least 1
    and with an image source that answers, each worker makes exactly
    ((y2 - y1) / step + 1) * ((x2 - x1) / step + 1) sample calls
    (integer division): a stride of [step] divides the work by about
    step squared. *)
Theorem sample_count (f : string -> string -> Z -> Z -> Qc)
    (region : Bounds) (node_name channel : string) (step : Z) :
  x1 region <= x2 region -> y1 region <= y2 region -> 1 <= step ->
  let count :=
    Z.to_nat (((y2 region - y1 region) / step + 1)
              * ((x2 region - x1 region) / step + 1)) in
  length (fst (_centroid (total_source f) region node_name channel step []))
    = count
  /\ length (fst (_max_value (total_source f) region node_name channel step []))
     = count.
Proof.
  intros Hx Hy Hs count.
  destruct (_centroid_total f node_name channel region step []) as (s & -> & _);
    [lia|].
  destruct (_max_value_total f node_name channel region step []) as (m & -> & _);
    [lia|].
  cbn [fst app]. rewrite length_grid, !length_xrange_items.
  rewrite !xrange_len_inclusive by lia. unfold count.
  assert (0 <= (y2 region - y1 region) / step) by (apply Z.div_pos; lia).
  assert (0 <= (x2 region - x1 region) / step) by (apply Z.div_pos; lia).
  rewrite Z2Nat.inj_mul by lia. done.
Qed.

Lemma sample_count_witness :
  length (fst (_centroid (total_source ramp) (mkBounds 0 0 6 3)
                 "Read1" "rgba.alpha" 2 [])) = 8%nat
  /\ length (fst (_max_value (total_source ramp) (mkBounds 0 0 6 3)
                    "Read1" "rgba.alpha" 2 [])) = 8%nat.
Proof.
  apply (sample_count ramp (mkBounds 0 0 6 3) "Read1" "rgba.alpha" 2);
    simpl; lia.
Defined.

Lemma grid_stride_subset region step p :
  1 <= step -> p ∈ grid region step -> p ∈ grid region 1.
Proof.
  intros Hs. destruct p as [x y].
  rewrite !elem_of_grid, !elem_of_xrange_items by lia.
  intros [(i & Hi & -> & Hix) (j & Hj & -> & Hjy)]. split.
  - exists (i * step). lia.
  - exists (j * step). lia.
Qed.

Lemma is_maximum_unique l m m' : is_maximum l m -> is_maximum l m' -> m = m'.
Proof.
  intros [Hin Hub] [Hin' Hub']. apply Qcle_antisym; auto.
Qed.

Lemma is_maximum_mono l l' m m' :
  (forall v, v ∈ l -> v ∈ l') -> is_maximum l m -> is_maximum l' m' ->
  (m <= m')%Qc.
Proof. intros Hsub [Hin _] [_ Hub']. auto. Qed.

(** X5. Sampling with a stride can only lower the maximum: with an image
    source that answers, the result of [_max_value] at a step of at
    least 1 is at most its result at step 1 on the same region. *)
Theorem _max_value_stride_le (f : string -> string -> Z -> Z -> Qc)
    (region : Bounds) (node_name channel : string) (step : Z)
    (m_all m_step : Qc) :
  1 <= step ->
  snd (_max_value (total_source f) region node_name channel 1 []) = Ok m_all ->
  snd (_max_value (total_source f) region node_name channel step [])
    = Ok m_step ->
  (m_step <= m_all)%Qc.
Proof.
  intros Hs H1 Hstep.
  destruct (_max_value_total f node_name channel region 1 [])
    as (m1 & E1 & Hm1); [lia|].
  destruct (_max_value_total f node_name channel region step [])
    as (m2 & E2 & Hm2); [lia|].
  rewrite E1 in H1. rewrite E2 in Hstep. simpl in H1, Hstep.
  injection H1 as ->. injection Hstep as ->.
  eapply is_maximum_mono; [|exact Hm2|exact Hm1].
  intros v [->|Hv]%elem_of_cons; [by left|right].
  apply list_elem_of_fmap in Hv as (p & -> & Hp).
  apply list_elem_of_fmap. exists p. split; [done|].
  by apply (grid_stride_subset region step).
Qed.

Lemma _max_value_stride_le_witness :
  snd (_max_value (total_source ramp) (mkBounds 0 0 3 1)
         "Read1" "rgba.alpha" 1 []) = Ok (Qc_of_Z 5)
  /\ snd (_max_value (total_source ramp) (mkBounds 0 0 3 1)
            "Read1" "rgba.alpha" 2 []) = Ok (Qc_of_Z 2)
  /\ (Qc_of_Z 2 <= Qc_of_Z 5)%Qc.
Proof.
  assert (H1 : snd (_max_value (total_source ramp) (mkBounds 0 0 3 1)
                      "Read1" "rgba.alpha" 1 []) = Ok (Qc_of_Z 5)) by qc_eval.
  assert (H2 : snd (_max_value (total_source ramp) (mkBounds 0 0 3 1)
                      "Read1" "rgba.alpha" 2 []) = Ok (Qc_of_Z 2)) by qc_eval.
  split; [exact H1|]. split; [exact H2|].
  apply (_max_value_stride_le ramp (mkBounds 0 0 3 1) "Read1" "rgba.alpha" 2
           (Qc_of_Z 5) (Qc_of_Z 2)); [lia|exact H1|exact H2].
Defined.

(** * Further properties of the aggregation *)

Lemma max_value_collect_values (vs : list Qc) (l : list Qc) (m0 : Qc) :
  is_maximum l m0 ->
  exists m, max_value_collect true (map Value vs) m0 = Returned m
            /\ is_maximum (l ++ vs) m.
Proof.
  revert l m0. induction vs as [|v vs IH]; intros l m0 Hm0; simpl.
  - exists m0. by rewrite app_nil_r.
  - destruct (IH (l ++ [v]) (py_max m0 v) (is_maximum_snoc _ _ _ Hm0))
      as (m & E & Hm).
    exists m. split; [done|]. by rewrite <- app_assoc in Hm.
Qed.

Lemma max_value_aggregate_values (vs : list Qc) :
  exists m, max_value_aggregate true (map Value vs) = Returned (Some m)
            /\ is_maximum (0%Qc :: vs) m.
Proof.
  destruct (max_value_collect_values vs [0%Qc] 0%Qc) as (m & E & Hm).
  - split; [by left|]. by intros v ->%list_elem_of_singleton.
  - exists m. unfold max_value_aggregate. by rewrite E.
Qed.

Lemma is_maximum_equiv l l' m :
  (forall v, v ∈ l <-> v ∈ l') -> is_maximum l m -> is_maximum l' m.
Proof.
  intros Heq [Hin Hub]. split; [by apply Heq|].
  intros v Hv. by apply Hub, Heq.
Qed.

(** X6. The order in which the jobs complete does not change
    [max_value]: when no job failed, the result is the greatest of 0.0
    and the collected partial maxima, so two collections holding the
    same values in different orders give the same result. *)
Theorem max_value_order_independent (vs vs' : list Qc) :
  Permutation vs vs' ->
  (exists m, max_value_aggregate true (map Value vs) = Returned (Some m)
             /\ is_maximum (0%Qc :: vs) m)
  /\ max_value_aggregate true (map Value vs)
     = max_value_aggregate true (map Value vs').
Proof.
  intros Hperm. split; [apply max_value_aggregate_values|].
  destruct (max_value_aggregate_values vs) as (m & -> & Hm).
  destruct (max_value_aggregate_values vs') as (m' & -> & Hm').
  do 2 f_equal. apply (is_maximum_unique (0%Qc :: vs')); [|done].
  apply (is_maximum_equiv (0%Qc :: vs)); [|done].
  intros v. rewrite !elem_of_cons. by rewrite Hperm.
Qed.

Lemma max_value_order_independent_witness :
  (exists m, max_value_aggregate true
               (map Value [Qc_of_Z 3; Qc_of_Z 7; Qc_of_Z 5])
             = Returned (Some m)
             /\ is_maximum (0%Qc :: [Qc_of_Z 3; Qc_of_Z 7; Qc_of_Z 5]) m)
  /\ max_value_aggregate true (map Value [Qc_of_Z 3; Qc_of_Z 7; Qc_of_Z 5])
     = max_value_aggregate true (map Value [Qc_of_Z 7; Qc_of_Z 5; Qc_of_Z 3]).
Proof.
  apply (max_value_order_independent [Qc_of_Z 3; Qc_of_Z 7; Qc_of_Z 5]
           [Qc_of_Z 7; Qc_of_Z 5; Qc_of_Z 3]).
  apply Permutation_cons_append.
Defined.

Section MaxOfPartials.

Variable f : string -> string -> Z -> Z -> Qc.
Variables node_name channel : string.

Let val (p : pixel) : Qc := f node_name channel p.1 p.2.

(** The partial maxima of the sub-regions, as values. *)
Lemma max_partials_values (subs : list Bounds) (step : Z) :
  step <> 0 ->
  exists ms,
    max_partials (total_source f) subs node_name channel step = map Value ms
    /\ Forall2 (fun b m => is_maximum (0%Qc :: map val (grid b step)) m)
         subs ms.
Proof.
  intros Hs. induction subs as [|b subs (ms & E & HF)].
  - exists []. by split; [|constructor].
  - destruct (_max_value_total f node_name channel b step [] Hs)
      as (m & Em & Hm).
    exists (m :: ms). split; [|by constructor].
    unfold max_partials in *. cbn [map]. rewrite E. unfold job_result.
    by rewrite Em.
Qed.

Lemma is_maximum_of_partials (subs : list Bounds) (step : Z) (ms : list Qc) m :
  Forall2 (fun b m => is_maximum (0%Qc :: map val (grid b step)) m) subs ms ->
  is_maximum (0%Qc :: ms) m ->
  is_maximum (0%Qc :: map val (flat_map (fun b => grid b step) subs)) m.
Proof.
  intros HF [Hin Hub]. split.
  - apply elem_of_cons in Hin as [->|Hin]; [by left|].
    induction HF as [|b mb subs ms [Hinb _] _ IH].
    + by apply elem_of_nil in Hin.
    + cbn [flat_map]. rewrite map_app.
      apply elem_of_cons in Hin as [->|Hin].
      * apply elem_of_cons in Hinb as [->|Hinb]; [by left|].
        right. apply elem_of_app. by left.
      * assert (Hub' : forall v, v ∈ 0%Qc :: ms -> (v <= m)%Qc).
        { intros v [->|Hv]%elem_of_cons; apply Hub; [by left|by do 2 right]. }
        specialize (IH Hin Hub').
        apply elem_of_cons in IH as [->|IH]; [by left|].
        right. apply elem_of_app. by right.
  - intros v [->|Hv]%elem_of_cons; [apply Hub; by left|].
    clear Hin. induction HF as [|b mb subs ms [_ Hubb] _ IH];
      [by apply elem_of_nil in Hv|].
    cbn [flat_map] in Hv. rewrite map_app in Hv.
    apply elem_of_app in Hv as [Hv|Hv].
    + apply Qcle_trans with mb; [apply Hubb; by right|].
      apply Hub. right. by left.
    + apply IH; [|done].
      intros w [->|Hw]%elem_of_cons; apply Hub; [by left|by do 2 right].
Qed.

Lemma max_partials_aggregate (subs : list Bounds) (step : Z) :
  step <> 0 ->
  exists m,
    max_value_aggregate true
      (max_partials (total_source f) subs node_name channel step)
    = Returned (Some m)
    /\ is_maximum (0%Qc :: map val (flat_map (fun b => grid b step) subs)) m.
Proof.
  intros Hs. destruct (max_partials_values subs step Hs) as (ms & -> & HF).
  destruct (max_value_aggregate_values ms) as (m & -> & Hm).
  exists m. split; [done|]. by apply (is_maximum_of_partials subs step ms).
Qed.

End MaxOfPartials.

(** X7. [_max_value] and the aggregation of [max_value] compose: over
    any list of sub-regions, with an image source that answers and no
    failure, the result is the greatest of 0.0 and every value sampled
    in any sub-region. *)
Theorem max_value_of_all_samples (f : string -> string -> Z -> Z -> Qc)
    (subs : list Bounds) (node_name channel : string) (step : Z) :
  step <> 0 ->
  exists m,
    max_value_aggregate true
      (max_partials (total_source f) subs node_name channel step)
    = Returned (Some m)
    /\ is_maximum
         (0%Qc :: map (fun p => f node_name channel p.1 p.2)
                    (flat_map (fun b => grid b step) subs)) m.
Proof. intros Hs. by apply max_partials_aggregate. Qed.

Lemma max_value_of_all_samples_witness :
  exists m,
    max_value_aggregate true
      (max_partials (total_source ramp)
         (split_first_column (mkBounds 0 0 2 1)) "Read1" "rgba.alpha" 1)
    = Returned (Some m)
    /\ is_maximum
         (0%Qc :: map (fun p => ramp "Read1" "rgba.alpha" p.1 p.2)
                    (flat_map (fun b => grid b 1)
                       (split_first_column (mkBounds 0 0 2 1)))) m.
Proof.
  apply (max_value_of_all_samples ramp
           (split_first_column (mkBounds 0 0 2 1))). lia.
Defined.

(** X8. At stride 1 [max_value] does not depend on how the region is cut
    into jobs: for every exact partition of the region, with an image
    source that answers and no failure, the result is the one a single
    job over the whole region gives. *)
Theorem max_value_partition_independent
    (f : string -> string -> Z -> Z -> Qc) (region : Bounds)
    (subs : list Bounds) (node_name channel : string) :
  is_partition subs region ->
  max_value_aggregate true
    (max_partials (total_source f) subs node_name channel 1)
  = max_value_aggregate true
      (max_partials (total_source f) [region] node_name channel 1).
Proof.
  intros Hpart.
  destruct (max_partials_aggregate f node_name channel subs 1 ltac:(lia))
    as (m & -> & Hm).
  destruct (max_partials_aggregate f node_name channel [region] 1 ltac:(lia))
    as (m' & -> & Hm').
  do 2 f_equal. eapply is_maximum_unique; [|exact Hm'].
  eapply is_maximum_equiv; [|exact Hm].
  intros v. rewrite !elem_of_cons. cbn [flat_map]. rewrite app_nil_r.
  unfold is_partition in Hpart. by rewrite Hpart.
Qed.

Lemma max_value_partition_independent_witness :
  max_value_aggregate true
    (max_partials (total_source ramp)
       (split_first_column (mkBounds 0 0 2 1)) "Read1" "rgba.alpha" 1)
  = max_value_aggregate true
      (max_partials (total_source ramp) [mkBounds 0 0 2 1]
         "Read1" "rgba.alpha" 1).
Proof.
  apply (max_value_partition_independent ramp (mkBounds 0 0 2 1)
           (split_first_column (mkBounds 0 0 2 1))).
  unfold is_partition. vm_compute.
  apply (Permutation_cons eq_refl).
  change [(0, 1); (1, 0); (2, 0); (1, 1); (2, 1)]
    with ([(0, 1)] ++ [(1, 0); (2, 0)] ++ [(1, 1); (2, 1)]).
  change [(1, 0); (2, 0); (0, 1); (1, 1); (2, 1)]
    with ([(1, 0); (2, 0)] ++ [(0, 1)] ++ [(1, 1); (2, 1)]).
  rewrite !app_assoc. apply Permutation_app_tail, Permutation_app_comm.
Defined.

Lemma centroid_aggregate_equal_counts (f : string -> string -> Z -> Z -> Qc)
    (subs : list Bounds) (node_name channel : string) (step : Z) :
  step <> 0 ->
  (forall b b', b ∈ subs -> b' ∈ subs ->
     length (grid b step) = length (grid b' step)) ->
  (0 < sumQc (map (fun p => f node_name channel p.1 p.2)
                (flat_map (fun b => grid b step) subs)))%Qc ->
  centroid_aggregate true
    (partials (total_source f) subs node_name channel step)
  = Returned
      (Some (weighted_centroid (fun p => f node_name channel p.1 p.2)
               (flat_map (fun b => grid b step) subs))).
Proof.
  intros Hs Hcount Hpos.
  set (val := fun p : pixel => f node_name channel p.1 p.2) in *.
  destruct subs as [|b0 subs'];
    [simpl in Hpos; by apply Qclt_not_eq in Hpos|].
  set (subs := b0 :: subs') in *.
  set (c := length (grid b0 step)).
  assert (Hc : forall b, b ∈ subs -> length (grid b step) = c).
  { intros b Hb. apply Hcount; [done|by left]. }
  assert (Hcpos : c <> 0%nat).
  { intros Hz.
    assert (Hnil : flat_map (fun b => grid b step) subs = []).
    { apply length_zero_iff_nil.
      rewrite (length_flat_map_const _ _ c) by done. lia. }
    rewrite Hnil in Hpos. simpl in Hpos. by apply Qclt_not_eq in Hpos. }
  assert (HC : Qc_of_Z (Z.of_nat c) <> 0%Qc).
  { rewrite <- Z2Qc_inj_0. intros H. apply Z2Qc_inj in H. lia. }
  assert (HCpos : (0 < Qc_of_Z (Z.of_nat c))%Qc).
  { rewrite <- Z2Qc_inj_0. apply (proj1 (Z2Qc_inj_lt _ _)). lia. }
  assert (Hps : partials (total_source f) subs node_name channel step
                = map Value
                    (map (fun b =>
                       (sumQc (map (fun p : pixel => val p * Qc_of_Z p.1)
                                 (grid b step)) / Qc_of_Z (Z.of_nat c),
                        sumQc (map (fun p : pixel => val p * Qc_of_Z p.2)
                                 (grid b step)) / Qc_of_Z (Z.of_nat c),
                        sumQc (map val (grid b step))
                          / Qc_of_Z (Z.of_nat c))%Qc) subs)).
  { unfold partials. rewrite map_map. apply map_ext_in.
    intros b Hb%list_elem_of_In. unfold job_result.
    rewrite _centroid_naive; [|done|].
    - cbn [snd]. unfold naive_centroid. by rewrite (Hc b Hb).
    - intros Hnil. specialize (Hc b Hb). rewrite Hnil in Hc. simpl in Hc. lia. }
  rewrite Hps, centroid_aggregate_values, !map_map. cbn [fst snd].
  rewrite !sumQc_quotients. unfold weighted_centroid, normalized.
  set (C := Qc_of_Z (Z.of_nat c)) in *.
  set (Tw := sumQc (map val (flat_map (fun b => grid b step) subs))) in *.
  assert (HTw : (0 < Tw)%Qc) by exact Hpos.
  assert (Hne : Tw <> 0%Qc).
  { intros Hz. rewrite Hz in HTw. by apply Qclt_not_eq in HTw. }
  assert (Hq : (0 < Tw / C)%Qc).
  { apply Qcmult_pos_pos; [done|by apply Qcinv_pos]. }
  destruct (decide (0 < Tw / C)%Qc); [|done].
  do 3 f_equal; field; done.
Qed.

(** X9. When the sub-regions hold equally many samples, the image source
    answers and the total sampled weight is positive, [centroid]'s
    aggregation of the workers' partial means is the weighted centroid
    of all the samples: the sum of value*x over the sum of value, and
    the sum of value*y over the sum of value (exact arithmetic). *)
Theorem centroid_is_weighted_mean (f : string -> string -> Z -> Z -> Qc)
    (subs : list Bounds) (node_name channel : string) (step : Z) :
  step <> 0 ->
  (forall b b', b ∈ subs -> b' ∈ subs ->
     length (grid b step) = length (grid b' step)) ->
  (0 < sumQc (map (fun p => f node_name channel p.1 p.2)
                (flat_map (fun b => grid b step) subs)))%Qc ->
  centroid_aggregate true
    (partials (total_source f) subs node_name channel step)
  = Returned
      (Some (weighted_centroid (fun p => f node_name channel p.1 p.2)
               (flat_map (fun b => grid b step) subs))).
Proof. apply centroid_aggregate_equal_counts. Qed.

Lemma centroid_is_weighted_mean_witness :
  centroid_aggregate true
    (partials (total_source ramp) [mkBounds 0 0 1 1; mkBounds 2 0 3 1]
       "Read1" "rgba.alpha" 1)
  = Returned
      (Some (weighted_centroid (fun p => ramp "Read1" "rgba.alpha" p.1 p.2)
               (flat_map (fun b => grid b 1)
                  [mkBounds 0 0 1 1; mkBounds 2 0 3 1]))).
Proof.
  apply (centroid_is_weighted_mean ramp [mkBounds 0 0 1 1; mkBounds 2 0 3 1]).
  - lia.
  - intros b b' Hb%list_elem_of_In Hb'%list_elem_of_In. simpl in Hb, Hb'.
    destruct Hb as [<-|[<-|[]]], Hb' as [<-|[<-|[]]]; reflexivity.
  - vm_compute. reflexivity.
Defined.

Lemma first_error_None_values {A} (results : list (JobResult A)) :
  first_error results = None -> results = map Value (job_values results).
Proof.
  induction results as [|[v|msg] rs IH]; simpl; [done| |done].
  intros H. by rewrite <- IH.
Qed.

(** X10. When the state flag is true as the polling loop is left, the
    operations raise exactly when some collected result is an
    exception, with the message of the first one; otherwise [centroid]
    returns the component sums of the collected partial results,
    divided by the summed weight if it is positive, and [max_value] the
    greatest of 0.0 and the collected values. *)
Theorem completed_run_outcome {E1 E2 : Type}
    `{ImageMultiProcessor E1 partial} `{ImageMultiProcessor E2 Qc}
    (sample : string -> string -> Z -> Z -> sampled) (fuel : nat)
    (task : ProgressTask) (mp1 : E1) (mp2 : E2) (node : Node)
    (channel : string) (step : Z) (e1 : E1) (e2 : E2) :
  centroid_engine sample fuel task mp1 node channel step = Some e1 ->
  max_value_engine sample fuel task mp2 node channel step = Some e2 ->
  state e1 = true -> state e2 = true ->
  centroid sample fuel task mp1 node channel step
  = Some match first_error (results e1) with
         | Some msg => Raised (Exception (Text msg))
         | None =>
             let ps := job_values (results e1) in
             Returned (Some (normalized (sumQc (map (fun p => p.1.1) ps))
                               (sumQc (map (fun p => p.1.2) ps))
                               (sumQc (map (fun p => p.2) ps))))
         end
  /\ match first_error (results e2) with
     | Some msg =>
         max_value sample fuel task mp2 node channel step
         = Some (Raised (Exception (Text msg)))
     | None =>
         exists m,
           max_value sample fuel task mp2 node channel step
           = Some (Returned (Some m))
           /\ is_maximum (0%Qc :: job_values (results e2)) m
     end.
Proof.
  intros He1 He2 Hs1 Hs2.
  rewrite centroid_unfold, max_value_unfold, He1, He2. simpl.
  rewrite Hs1, Hs2. split.
  - f_equal. destruct (first_error (results e1)) as [msg|] eqn:Hfe.
    + unfold centroid_aggregate.
      pose proof (centroid_collect_true (results e1)
                    (mkVars (Some (0, 0)) 0 0 0)%Qc) as Hc.
      rewrite Hfe in Hc. by rewrite Hc.
    + rewrite (first_error_None_values _ Hfe) at 1.
      apply centroid_aggregate_values.
  - destruct (first_error (results e2)) as [msg|] eqn:Hfe.
    + unfold max_value_aggregate.
      pose proof (max_value_collect_true (results e2) 0%Qc) as Hc.
      rewrite Hfe in Hc. by rewrite Hc.
    + destruct (max_value_aggregate_values (job_values (results e2)))
        as (m & E & Hm).
      exists m. split; [|done].
      rewrite (first_error_None_values _ Hfe). by rewrite E.
Qed.

Lemma completed_run_outcome_witness :
  exists e1 e2,
    centroid_engine uniform_one 10 never_cancelled
      (fresh split_first_column) (strip 3) "rgba.alpha" 1 = Some e1
    /\ max_value_engine uniform_one 10 never_cancelled
         (fresh split_first_column) (strip 3) "rgba.alpha" 1 = Some e2
    /\ state e1 = true /\ state e2 = true
    /\ centroid uniform_one 10 never_cancelled (fresh split_first_column)
         (strip 3) "rgba.alpha" 1
       = Some match first_error (results e1) with
              | Some msg => Raised (Exception (Text msg))
              | None =>
                  let ps := job_values (results e1) in
                  Returned
                    (Some (normalized (sumQc (map (fun p => p.1.1) ps))
                             (sumQc (map (fun p => p.1.2) ps))
                             (sumQc (map (fun p => p.2) ps))))
              end
    /\ match first_error (results e2) with
       | Some msg =>
           max_value uniform_one 10 never_cancelled
             (fresh split_first_column) (strip 3) "rgba.alpha" 1
           = Some (Raised (Exception (Text msg)))
       | None =>
           exists m,
             max_value uniform_one 10 never_cancelled
               (fresh split_first_column) (strip 3) "rgba.alpha" 1
             = Some (Returned (Some m))
             /\ is_maximum (0%Qc :: job_values (results e2)) m
       end.
Proof.
  eexists. eexists.
  split; [vm_compute; reflexivity|]. split; [vm_compute; reflexivity|].
  split; [reflexivity|]. split; [reflexivity|].
  apply (completed_run_outcome uniform_one 10 never_cancelled
           (fresh split_first_column) (fresh split_first_column)
           (strip 3) "rgba.alpha" 1).
  - vm_compute. reflexivity.
  - vm_compute. reflexivity.
  - reflexivity.
  - reflexivity.
Defined.

Lemma sumQc_weighted_bounds {A} (val w : A -> Qc) (a b : Qc) (l : list A) :
  (forall p, p ∈ l -> (0 <= val p)%Qc /\ (a <= w p)%Qc /\ (w p <= b)%Qc) ->
  (a * sumQc (map val l) <= sumQc (map (fun p => val p * w p) l))%Qc
  /\ (sumQc (map (fun p => val p * w p) l) <= b * sumQc (map val l))%Qc.
Proof.
  induction l as [|p l IH]; intros Hl.
  - simpl. rewrite !Qcmult_0_r. split; apply Qcle_refl.
  - destruct IH as [IHa IHb]; [intros q Hq; apply Hl; by right|].
    destruct (Hl p ltac:(by left)) as (Hv & Ha & Hb).
    cbn [map sumQc foldr]. fold (sumQc (map val l)).
    fold (sumQc (map (fun p => val p * w p)%Qc l)).
    rewrite !Qcmult_plus_distr_r. split; apply Qcplus_le_compat; try done.
    + rewrite (Qcmult_comm a). by apply Qcmult_le_mono_nonneg_l.
    + rewrite (Qcmult_comm b). by apply Qcmult_le_mono_nonneg_l.
Qed.

Lemma Qc_quotient_bounds (a b t w : Qc) :
  (0 < w)%Qc -> (a * w <= t)%Qc -> (t <= b * w)%Qc ->
  (a <= t / w)%Qc /\ (t / w <= b)%Qc.
Proof.
  intros Hw Ha Hb.
  assert (Hne : w <> 0%Qc).
  { intros Hz. rewrite Hz in Hw. by apply Qclt_not_eq in Hw. }
  assert (Ht : (t / w * w)%Qc = t) by (field; done).
  split; apply (Qcmult_le_mono_pos_r _ _ w Hw); by rewrite Ht.
Qed.

Lemma grid_inside region step p :
  1 <= step -> p ∈ grid region step ->
  x1 region <= p.1 <= x2 region /\ y1 region <= p.2 <= y2 region.
Proof.
  intros Hs. destruct p as [x y].
  rewrite elem_of_grid, !elem_of_xrange_items by lia.
  intros [(i & Hi & -> & Hix) (j & Hj & -> & Hjy)]. simpl. nia.
Qed.

(** X14. In exact arithmetic (rounding apart), with non-negative
    sampled values of positive total, sub-regions inside the region
    that hold equally many samples, and a step of at least 1, the point
    [centroid] aggregates lies inside the region: x1 <= x <= x2 and
    y1 <= y <= y2. *)
Theorem centroid_inside_region (f : string -> string -> Z -> Z -> Qc)
    (region : Bounds) (subs : list Bounds) (node_name channel : string)
    (step : Z) :
  1 <= step ->
  (forall b, b ∈ subs ->
     x1 region <= x1 b /\ x2 b <= x2 region
     /\ y1 region <= y1 b /\ y2 b <= y2 region) ->
  (forall b b', b ∈ subs -> b' ∈ subs ->
     length (grid b step) = length (grid b' step)) ->
  (forall b p, b ∈ subs -> p ∈ grid b step ->
     (0 <= f node_name channel p.1 p.2)%Qc) ->
  (0 < sumQc (map (fun p => f node_name channel p.1 p.2)
                (flat_map (fun b => grid b step) subs)))%Qc ->
  exists cx cy,
    centroid_aggregate true
      (partials (total_source f) subs node_name channel step)
    = Returned (Some (cx, cy))
    /\ (Qc_of_Z (x1 region) <= cx)%Qc /\ (cx <= Qc_of_Z (x2 region))%Qc
    /\ (Qc_of_Z (y1 region) <= cy)%Qc /\ (cy <= Qc_of_Z (y2 region))%Qc.
Proof.
  intros Hs Hin Hcount Hnonneg Hpos.
  rewrite centroid_aggregate_equal_counts by (done || lia).
  unfold weighted_centroid. eexists. eexists. split; [reflexivity|].
  assert (Hpts : forall p, p ∈ flat_map (fun b => grid b step) subs ->
            (0 <= f node_name channel p.1 p.2)%Qc
            /\ x1 region <= p.1 <= x2 region
            /\ y1 region <= p.2 <= y2 region).
  { intros p Hp. apply list_elem_of_In, in_flat_map in Hp as (b & Hb & Hp).
    apply list_elem_of_In in Hb, Hp.
    destruct (Hin b Hb) as (? & ? & ? & ?).
    destruct (grid_inside b step p Hs Hp) as [? ?].
    split; [by apply (Hnonneg b)|lia]. }
  destruct (sumQc_weighted_bounds (fun p : pixel => f node_name channel p.1 p.2)
              (fun p : pixel => Qc_of_Z p.1)
              (Qc_of_Z (x1 region)) (Qc_of_Z (x2 region))
              (flat_map (fun b => grid b step) subs)) as [Hxa Hxb].
  { intros p Hp. destruct (Hpts p Hp) as (? & ? & ?).
    split; [done|]. split; apply (proj1 (Z2Qc_inj_le _ _)); lia. }
  destruct (sumQc_weighted_bounds (fun p : pixel => f node_name channel p.1 p.2)
              (fun p : pixel => Qc_of_Z p.2)
              (Qc_of_Z (y1 region)) (Qc_of_Z (y2 region))
              (flat_map (fun b => grid b step) subs)) as [Hya Hyb].
  { intros p Hp. destruct (Hpts p Hp) as (? & ? & ?).
    split; [done|]. split; apply (proj1 (Z2Qc_inj_le _ _)); lia. }
  destruct (Qc_quotient_bounds _ _ _ _ Hpos Hxa Hxb).
  destruct (Qc_quotient_bounds _ _ _ _ Hpos Hya Hyb).
  done.
Qed.

Lemma centroid_inside_region_witness :
  exists cx cy,
    centroid_aggregate true
      (partials (total_source ramp) [mkBounds 0 0 1 1; mkBounds 2 0 3 1]
         "Read1" "rgba.alpha" 1)
    = Returned (Some (cx, cy))
    /\ (Qc_of_Z (x1 (mkBounds 0 0 3 1)) <= cx)%Qc
    /\ (cx <= Qc_of_Z (x2 (mkBounds 0 0 3 1)))%Qc
    /\ (Qc_of_Z (y1 (mkBounds 0 0 3 1)) <= cy)%Qc
    /\ (cy <= Qc_of_Z (y2 (mkBounds 0 0 3 1)))%Qc.
Proof.
  apply (centroid_inside_region ramp (mkBounds 0 0 3 1)
           [mkBounds 0 0 1 1; mkBounds 2 0 3 1]).
  - lia.
  - intros b Hb%list_elem_of_In. simpl in Hb.
    destruct Hb as [<-|[<-|[]]]; simpl; lia.
  - intros b b' Hb%list_elem_of_In Hb'%list_elem_of_In. simpl in Hb, Hb'.
    destruct Hb as [<-|[<-|[]]], Hb' as [<-|[<-|[]]]; reflexivity.
  - intros b p Hb Hp. unfold ramp. rewrite <- Z2Qc_inj_0.
    apply (proj1 (Z2Qc_inj_le _ _)).
    apply list_elem_of_In in Hb. simpl in Hb.
    destruct Hb as [<-|[<-|[]]];
      destruct (grid_inside _ 1 p ltac:(lia) Hp) as [? ?]; simpl in *; lia.
  - vm_compute. reflexivity.
Defined.

(** * Further properties of the polling loop *)

Section Polling.

Context {E A : Type} `{ImageMultiProcessor E A}.
Variable task : ProgressTask.

(** [k] rounds in which the engine is working and nobody cancels. *)
Lemma poll_rounds (k i fuel : nat) (mp : E) :
  (forall j, (j < k)%nat ->
     is_working (Nat.iter j wait_one mp) = true
     /\ isCancelled task (i + j) = false) ->
  poll (k + fuel) task i mp = poll fuel task (i + k) (Nat.iter k wait_one mp).
Proof.
  revert i mp. induction k as [|k IH]; intros i mp Hrun.
  - by rewrite Nat.add_0_r.
  - destruct (Hrun 0%nat ltac:(lia)) as [Hw Hc]. simpl in Hw.
    rewrite Nat.add_0_r in Hc. cbn [Nat.add poll]. rewrite Hw, Hc.
    rewrite IH.
    + by rewrite <- Nat.iter_succ_r, Nat.add_succ_r.
    + intros j Hj. destruct (Hrun (S j) ltac:(lia)) as [Hw' Hc'].
      rewrite Nat.iter_succ_r in Hw'. by rewrite Nat.add_succ_r in Hc'.
Qed.

End Polling.

(** X11. Cancellation is honoured at the first poll at which the task
    reports it while the engine is still working: the loop has then
    waited for exactly that many completions, issues [abort] once and
    waits no more. *)
Theorem poll_cancelled {E A : Type} `{ImageMultiProcessor E A}
    (task : ProgressTask) (mp : E) (k fuel : nat) :
  (forall j, (j < k)%nat ->
     is_working (Nat.iter j wait_one mp) = true
     /\ isCancelled task j = false) ->
  is_working (Nat.iter k wait_one mp) = true ->
  isCancelled task k = true ->
  (k < fuel)%nat ->
  poll fuel task 0 mp = Some (abort (Nat.iter k wait_one mp)).
Proof.
  intros Hrun Hw Hc Hfuel.
  replace fuel with (k + S (fuel - S k))%nat by lia.
  rewrite (poll_rounds task k 0); [|done]. simpl. by rewrite Hw, Hc.
Qed.

Lemma poll_cancelled_witness :
  poll 5 (mkTask (fun j => (1 <=? j)%nat)) 0
    (mkScripted split_first_column
       [Value 1%Qc; Value 0%Qc; Value 1%Qc] [] true false)
  = Some (abort (Nat.iter 1 wait_one
                   (mkScripted split_first_column
                      [Value 1%Qc; Value 0%Qc; Value 1%Qc] [] true false))).
Proof.
  apply (poll_cancelled (mkTask (fun j => (1 <=? j)%nat))
           (mkScripted split_first_column
              [Value 1%Qc; Value 0%Qc; Value 1%Qc] [] true false) 1 5).
  - intros j Hj. assert (j = 0%nat) as -> by lia. split; reflexivity.
  - reflexivity.
  - reflexivity.
  - lia.
Defined.

(** X12. If nobody cancels while the engine is working, the loop waits
    for completions until the engine stops working and leaves it as it
    is then: [abort] is not issued, and the task is not asked again. *)
Theorem poll_completed {E A : Type} `{ImageMultiProcessor E A}
    (task : ProgressTask) (mp : E) (k fuel : nat) :
  (forall j, (j < k)%nat ->
     is_working (Nat.iter j wait_one mp) = true
     /\ isCancelled task j = false) ->
  is_working (Nat.iter k wait_one mp) = false ->
  (k < fuel)%nat ->
  poll fuel task 0 mp = Some (Nat.iter k wait_one mp).
Proof.
  intros Hrun Hw Hfuel.
  replace fuel with (k + S (fuel - S k))%nat by lia.
  rewrite (poll_rounds task k 0); [|done]. simpl. by rewrite Hw.
Qed.

Lemma poll_completed_witness :
  poll 5 never_cancelled 0
    (mkScripted split_first_column [Value 1%Qc; Value 0%Qc] [] true false)
  = Some (Nat.iter 2 wait_one
            (mkScripted split_first_column
               [Value 1%Qc; Value 0%Qc] [] true false)).
Proof.
  apply (poll_completed never_cancelled
           (mkScripted split_first_column
              [Value 1%Qc; Value 0%Qc] [] true false) 2 5).
  - intros j Hj.
    assert (j = 0%nat \/ j = 1%nat) as [-> | ->] by lia; split; reflexivity.
  - reflexivity.
  - lia.
Defined.

(** X13. Neither operation ever returns [None]: whatever the engine, the
    task, the node and the image source, [centroid] returns a pair and
    [max_value] a number, or they raise. *)
Theorem operations_never_return_None {E1 E2 : Type}
    `{ImageMultiProcessor E1 partial} `{ImageMultiProcessor E2 Qc}
    (sample : string -> string -> Z -> Z -> sampled) (fuel : nat)
    (task : ProgressTask) (mp1 : E1) (mp2 : E2) (node : Node)
    (channel : string) (step : Z) :
  centroid sample fuel task mp1 node channel step <> Some (Returned None)
  /\ max_value sample fuel task mp2 node channel step <> Some (Returned None).
Proof.
  split.
  - rewrite centroid_unfold.
    destruct (centroid_engine _ _ _ _ _ _ _); [|done].
    simpl. intros [= Hn]. by apply centroid_aggregate_not_None in Hn.
  - rewrite max_value_unfold.
    destruct (max_value_engine _ _ _ _ _ _ _); [|done].
    simpl. intros [= Hn]. by apply max_value_aggregate_not_None in Hn.
Qed.
